(** * Trip Splitter: the per-person breakdown of a receipt

    A shallow embedding of [frontend/src/lib/calculations.ts] and the
    properties of [calculatePerPersonBreakdown].

    The TypeScript code computes with the JavaScript [number] type.  The
    algorithm is embedded once, over an interface [JsNumber] that lists the
    operations the source applies to numbers ([+], [-], [*], [/], [>] and the
    truthiness test behind [x || 0]).  Two instances are given:

    - [binary64]: IEEE 754 double precision, what a JavaScript engine runs;
    - [exact]: the canonical rationals [Qc], arithmetic without rounding
      of the quotient, used for the algebraic properties.

    Properties that only depend on the control flow are proved for every
    instance; concrete receipts are evaluated in both.  What the comparator
    of the final sort does in doubles is derived from the specification of
    binary64 ([SpecFloat]). *)

From Stdlib Require Import List String Bool Arith ZArith Lia.
From Stdlib Require Import QArith Qcanon Qcabs.
From Stdlib Require Import Floats.
From Stdlib Require Import Sorted Permutation.
Import ListNotations.

Set Implicit Arguments.
Local Open Scope string_scope.
Local Open Scope list_scope.

(** ** JavaScript numbers *)

Declare Scope js_scope.
Delimit Scope js_scope with js.

Class JsNumber (num : Type) : Type := {
  zero : num;
  add : num -> num -> num;
  sub : num -> num -> num;
  mul : num -> num -> num;
  div : num -> num -> num;
  (** [gtb a b] is the JavaScript test [a > b]. *)
  gtb : num -> num -> bool;
  (** [truthy x] is ToBoolean(x): false for 0, -0 and NaN. *)
  truthy : num -> bool;
  (** [0 > 0] is false. *)
  gtb_zero_zero : gtb zero zero = false
}.

Infix "+" := add : js_scope.
Infix "-" := sub : js_scope.
Infix "*" := mul : js_scope.
Infix "/" := div : js_scope.
Infix ">?" := gtb (at level 70, no associativity) : js_scope.

(** IEEE 754 binary64, round to nearest even: the kernel's primitive floats. *)
#[export] Instance binary64 : JsNumber float := {
  zero := PrimFloat.zero;
  add := PrimFloat.add;
  sub := PrimFloat.sub;
  mul := PrimFloat.mul;
  div := PrimFloat.div;
  gtb := fun a b => PrimFloat.ltb b a;
  truthy := fun x => PrimFloat.eqb x x && negb (PrimFloat.eqb x PrimFloat.zero);
  gtb_zero_zero := eq_refl
}.

Definition Qc_gtb (a b : Qc) : bool :=
  match Qccompare a b with Gt => true | _ => false end.

(** Exact arithmetic on canonical rationals.  [x / 0] is 0 here; both
    divisions of the source stand behind a guard [divisor > 0].  This is not
    the arithmetic of the program, which computes in doubles: a statement
    about [exact] says what the formulas of the source give when nothing is
    rounded. *)
#[export] Instance exact : JsNumber Qc := {
  zero := 0%Qc;
  add := Qcplus;
  sub := Qcminus;
  mul := Qcmult;
  div := Qcdiv;
  gtb := Qc_gtb;
  truthy := fun x => negb (Qc_eq_bool x 0%Qc);
  gtb_zero_zero := eq_refl
}.

(** ** Insertion-ordered maps with string keys (JavaScript [Map]) *)

Section JsMap.
Variable V : Type.

(** A [Map<string, V>]: the entries in insertion order, keys distinct. *)
Definition JsMap := list (string * V).

Fixpoint map_get (m : JsMap) (k : string) : option V :=
  match m with
  | [] => None
  | (k', v) :: m' => if String.eqb k k' then Some v else map_get m' k
  end.

Definition map_has (m : JsMap) (k : string) : bool :=
  match map_get m k with Some _ => true | None => false end.

(** [m.set(k, v)]: an existing key keeps its position, a new key is
    appended. *)
Fixpoint map_set (m : JsMap) (k : string) (v : V) : JsMap :=
  match m with
  | [] => [(k, v)]
  | (k', v') :: m' =>
      if String.eqb k k' then (k', v) :: m' else (k', v') :: map_set m' k v
  end.

Definition map_values (m : JsMap) : list V := List.map snd m.
Definition map_keys (m : JsMap) : list string := List.map fst m.
End JsMap.

(** ** The data model of calculations.ts *)

Section Calculations.
Context {num : Type} `{JsNumber num}.
Local Open Scope js_scope.

Record Assignment : Type := mkAssignment {
  participant_id : string;
  participant_name : string;
  shares : num
}.

Record LineItem : Type := mkLineItem {
  unit_price_cents : num;
  quantity : num;
  assignments : list Assignment
}.

Record TaxLine : Type := mkTaxLine {
  amount_cents : num
}.

Record ReceiptData : Type := mkReceiptData {
  line_items : list LineItem;
  tax_lines : list TaxLine;
  tip_cents : option num
}.

Record PerPersonBreakdown : Type := mkPerPersonBreakdown {
  participantId : string;
  participantName : string;
  itemsTotal : num;
  taxShare : num;
  tipShare : num;
  total : num
}.

(** [x || 0] for [x : number | null | undefined]. *)
Definition orZero (x : option num) : num :=
  match x with
  | Some v => if truthy v then v else zero
  | None => zero
  end.

(** The three locals the first loop updates. *)
Record State : Type := mkState {
  breakdown : JsMap PerPersonBreakdown;
  participantItemTotals : JsMap num;
  totalAssignedAmount : num
}.

Definition initialState : State :=
  mkState [] [] zero.

Definition itemTotal (item : LineItem) : num :=
  unit_price_cents item * quantity item.

(** [item.assignments.reduce((sum, a) => sum + a.shares, 0)] *)
Definition totalShares (item : LineItem) : num :=
  fold_left (fun sum a => sum + shares a) (assignments item) zero.

Definition participantShare (item : LineItem) (assignment : Assignment) : num :=
  (itemTotal item * shares assignment) / totalShares item.

Definition newEntry (assignment : Assignment) : PerPersonBreakdown :=
  mkPerPersonBreakdown (participant_id assignment)
    (participant_name assignment) zero zero zero zero.

Definition addItems (entry : PerPersonBreakdown) (x : num) : PerPersonBreakdown :=
  mkPerPersonBreakdown (participantId entry) (participantName entry)
    (itemsTotal entry + x) (taxShare entry) (tipShare entry) (total entry).

(** The body of the inner [forEach], lines 68 to 92. *)
Definition processAssignment (item : LineItem) (st : State)
    (assignment : Assignment) : State :=
  let share := participantShare item assignment in
  let current := orZero (map_get (participantItemTotals st) (participant_id assignment)) in
  let totals := map_set (participantItemTotals st) (participant_id assignment)
                  (current + share) in
  let assigned := totalAssignedAmount st + share in
  let bd :=
    if map_has (breakdown st) (participant_id assignment)
    then breakdown st
    else map_set (breakdown st) (participant_id assignment) (newEntry assignment) in
  let bd' :=
    match map_get bd (participant_id assignment) with
    | Some entry => map_set bd (participant_id assignment) (addItems entry share)
    | None => bd
    end in
  mkState bd' totals assigned.

(** The body of the outer [forEach], lines 63 to 94. *)
Definition processItem (st : State) (item : LineItem) : State :=
  if totalShares item >? zero
  then fold_left (processAssignment item) (assignments item) st
  else st.

Definition processItems (items : list LineItem) : State :=
  fold_left processItem items initialState.

Definition taxTotal (receipt : ReceiptData) : num :=
  fold_left (fun sum tax => sum + amount_cents tax) (tax_lines receipt) zero.

Definition tipTotal (receipt : ReceiptData) : num :=
  orZero (tip_cents receipt).

(** The body of [breakdown.forEach], lines 104 to 111: [taxes] and [tips]
    are [taxTotal] and [tipTotal]; below the guard the entry keeps the
    shares it has. *)
Definition prorate (taxes tips : num) (st : State)
    (kv : string * PerPersonBreakdown) : string * PerPersonBreakdown :=
  let (participant, entry) := kv in
  let itemsShare := orZero (map_get (participantItemTotals st) participant) in
  let tax := if totalAssignedAmount st >? zero
             then (taxes * itemsShare) / totalAssignedAmount st
             else taxShare entry in
  let tip := if totalAssignedAmount st >? zero
             then (tips * itemsShare) / totalAssignedAmount st
             else tipShare entry in
  (participant,
   mkPerPersonBreakdown (participantId entry) (participantName entry)
     (itemsTotal entry) tax tip (itemsTotal entry + tax + tip)).

(** [(a, b) => b.total - a.total] *)
Definition compareTotals (a b : PerPersonBreakdown) : num :=
  total b - total a.

(** [Array.prototype.sort] is a stable sort (ECMAScript 2019): an element
    moves behind another only when the comparator is positive on the pair.
    For a comparator that orders the elements consistently the stably sorted
    list is unique, and this insertion from the right computes it.  For a
    comparator that does not (a total that is NaN among totals that differ)
    ECMAScript leaves the order to the engine; of the order of such a list
    nothing is stated below. *)
Fixpoint sortInsert (cmp : PerPersonBreakdown -> PerPersonBreakdown -> num)
    (x : PerPersonBreakdown) (l : list PerPersonBreakdown) : list PerPersonBreakdown :=
  match l with
  | [] => [x]
  | y :: l' => if cmp x y >? zero then y :: sortInsert cmp x l' else x :: l
  end.

Definition sort (cmp : PerPersonBreakdown -> PerPersonBreakdown -> num)
    (l : list PerPersonBreakdown) : list PerPersonBreakdown :=
  fold_right (sortInsert cmp) [] l.

(** [Array.from(breakdown.values())] after the proration loop. *)
Definition proratedEntries (receipt : ReceiptData) : list PerPersonBreakdown :=
  let st := processItems (line_items receipt) in
  map_values (List.map (prorate (taxTotal receipt) (tipTotal receipt) st) (breakdown st)).

Definition calculatePerPersonBreakdown (receipt : ReceiptData) : list PerPersonBreakdown :=
  sort compareTotals (proratedEntries receipt).

End Calculations.

Arguments Assignment num : clear implicits.
Arguments LineItem num : clear implicits.
Arguments TaxLine num : clear implicits.
Arguments ReceiptData num : clear implicits.
Arguments PerPersonBreakdown num : clear implicits.
Arguments State num : clear implicits.

(** ** The loop and its runs, as lists *)

(** The keys of a list in the order in which each occurs first. *)
Definition firstOccurrences (ids : list string) : list string :=
  fold_left (fun seen k => if existsb (String.eqb k) seen then seen else seen ++ [k])
    ids [].

Section Visits.
Context {num : Type} `{JsNumber num}.
Local Open Scope js_scope.

(** The line item passes the guard [totalShares > 0] of line 67. *)
Definition assigned (item : LineItem num) : bool :=
  totalShares item >? zero.

(** A run of the inner loop body: the line item and the assignment. *)
Definition Visit : Type := (LineItem num * Assignment num)%type.

(** The runs of the inner loop body, in the order of execution. *)
Definition visits (items : list (LineItem num)) : list Visit :=
  flat_map (fun item =>
              if assigned item then List.map (pair item) (assignments item) else [])
           items.

Definition visit (st : State num) (v : Visit) : State num :=
  processAssignment (fst v) st (snd v).

Definition visitor (v : Visit) : string := participant_id (snd v).
Definition credit (v : Visit) : num := participantShare (fst v) (snd v).

(** The amounts credited to [participant], in the order of execution. *)
Definition creditedTo (participant : string) (t : list Visit) : list num :=
  List.map credit (filter (fun v => String.eqb participant (visitor v)) t).

(** [0 + x1 + x2 + ...], summed from the left as the loop does. *)
Definition sumFrom (start : num) (l : list num) : num := fold_left add l start.






(** The comparator of the sort is positive on [(a, b)], so that the sort puts
    [b] before [a]: [b.total - a.total > 0]. *)
Definition comesAfter (a b : PerPersonBreakdown num) : bool :=
  compareTotals a b >? zero.

(** The comparator is positive on neither [(a, b)] nor [(b, a)]. *)
Definition tied (a b : PerPersonBreakdown num) : bool :=
  negb (comesAfter a b) && negb (comesAfter b a).

(** The comparator orders the entries of [l] consistently, which is what
    ECMAScript asks of a comparator for the order of the sorted array to be
    defined: it is positive on no pair in both directions, and where it is
    positive on neither [(a, b)] nor [(b, c)] it is not positive on [(a, c)].
    In doubles a total that is NaN ties with every total and breaks this as
    soon as two other totals differ. *)
Definition consistentComparator (l : list (PerPersonBreakdown num)) : bool :=
  forallb (fun a =>
    forallb (fun b =>
      implb (comesAfter a b) (negb (comesAfter b a)) &&
      forallb (fun c =>
        implb (negb (comesAfter a b) && negb (comesAfter b c)) (negb (comesAfter a c)))
        l)
      l)
    l.

End Visits.

(** ** Sums, scaling and order in exact arithmetic *)

Section ExactDefinitions.
Local Open Scope Qc_scope.
Implicit Types (r : ReceiptData Qc) (e : PerPersonBreakdown Qc).

Definition sumList (l : list Qc) : Qc := fold_right Qcplus 0 l.



(** The line item without its zero-share assignments. *)
Definition dropZeroShares (item : LineItem Qc) : LineItem Qc :=
  mkLineItem (unit_price_cents item) (quantity item)
    (filter (fun a => negb (Qc_eq_bool (shares a) 0%Qc)) (assignments item)).

End ExactDefinitions.

(** Reads the operations of the [exact] instance as those of [Qc]. *)
Ltac to_Qc :=
  change (@add Qc exact) with Qcplus in *;
  change (@sub Qc exact) with Qcminus in *;
  change (@mul Qc exact) with Qcmult in *;
  change (@div Qc exact) with Qcdiv in *;
  change (@zero Qc exact) with 0 in *;
  change (@gtb Qc exact) with Qc_gtb in *.

(** ** Calls and their outcome *)

(** What a caller of a TypeScript function observes: a returned value or a
    thrown error with its description. *)
Inductive Outcome (A : Type) : Type :=
| Returned (value : A)
| Rejected (description : string).

Arguments Returned {A} value.
Arguments Rejected {A} description.

(** [calculatePerPersonBreakdown] contains no [throw] and validates nothing,
    and no operation it applies to a [ReceiptData] throws: a call returns. *)
Definition invoke {num : Type} `{JsNumber num} (receipt : ReceiptData num)
  : Outcome (list (PerPersonBreakdown num)) :=
  Returned (calculatePerPersonBreakdown receipt).

(** Some assignment of the receipt has shares below zero. *)
Definition hasNegativeShares {num : Type} `{JsNumber num} (receipt : ReceiptData num) : bool :=
  existsb (fun item => existsb (fun a => gtb zero (shares a)) (assignments item))
    (line_items receipt).

(** ** Receipts of the test suite and of the specification *)

Section Scenarios.
Context {num : Type} `{JsNumber num}.
(** The number that stands for an integer literal. *)
Variable cents : Z -> num.

Definition alice (n : Z) : Assignment num := mkAssignment "p1" "Alice" (cents n).
Definition bob (n : Z) : Assignment num := mkAssignment "p2" "Bob" (cents n).

Definition oneItem (price : Z) (l : list (Assignment num)) : LineItem num :=
  mkLineItem (cents price) (cents 1) l.

(** 'handles unequal shares (2:1 split)', scenario A. *)
Definition receiptTwoToOne : ReceiptData num :=
  mkReceiptData [oneItem 3000 [alice 2; bob 1]] [] None.

(** 'prorates tax based on item share proportions', scenario B. *)
Definition receiptTax : ReceiptData num :=
  mkReceiptData [oneItem 2000 [alice 1]; oneItem 1000 [bob 1]]
    [mkTaxLine (cents 300)] None.

(** 'handles mixed assigned and unassigned items correctly'. *)
Definition receiptMixed : ReceiptData num :=
  mkReceiptData [oneItem 1000 [alice 1]; oneItem 5000 []]
    [mkTaxLine (cents 600)] None.

(** 'handles zero shares correctly', scenario D. *)
Definition receiptZeroShares : ReceiptData num :=
  mkReceiptData [oneItem 1000 [alice 0]] [] None.

(** Ten dollars, one share for Alice and two for Bob. *)
Definition receiptThirds : ReceiptData num :=
  mkReceiptData [oneItem 1000 [alice 1; bob 2]] [] None.

(** Ten dollars, one share for Alice and a zero-share assignment for Bob. *)
Definition receiptIdleShare : ReceiptData num :=
  mkReceiptData [oneItem 1000 [alice 1; bob 0]] [] None.

(** Ten dollars, two shares for Alice and minus one for Bob. *)
Definition receiptNegative : ReceiptData num :=
  mkReceiptData [oneItem 1000 [alice 2; bob (-1)]] [] None.

(** A free item with one share, a tax line and a tip. *)
Definition receiptFree : ReceiptData num :=
  mkReceiptData [oneItem 0 [alice 1]] [mkTaxLine (cents 300)] (Some (cents 100)).

(** Two participants with equal totals, Bob met first. *)
Definition receiptTie : ReceiptData num :=
  mkReceiptData [oneItem 1000 [bob 1; alice 1]; oneItem 3000 [mkAssignment "p3" "Charlie" (cents 1)]]
    [] None.
End Scenarios.

(** Integer literals as rationals and as doubles (the conversion to a double
    is exact below 2^53). *)
Definition centsQ (n : Z) : Qc := Q2Qc (inject_Z n).

Definition centsF (n : Z) : float :=
  match n with
  | Z0 => PrimFloat.zero
  | Zpos _ => PrimFloat.of_uint63 (Uint63.of_Z n)
  | Zneg p => PrimFloat.opp (PrimFloat.of_uint63 (Uint63.of_Z (Zpos p)))
  end.

(** The double is an integer. *)
Definition whole64 (x : float) : bool :=
  match Prim2SF x with
  | S754_zero _ => true
  | S754_finite _ m e => (0 <=? e)%Z || (Z.pos m mod 2 ^ (- e) =? 0)%Z
  | _ => false
  end.

(** The rational is an integer. *)
Definition wholeQc (x : Qc) : bool := Pos.eqb (Qden x) 1.

(** Entries of the returned lists. *)

Definition aliceThird : PerPersonBreakdown float :=
  mkPerPersonBreakdown "p1" "Alice"
    0x1.4d55555555555p+8%float 0%float 0%float 0x1.4d55555555555p+8%float.


Definition aliceFree : PerPersonBreakdown float :=
  mkPerPersonBreakdown "p1" "Alice" 0%float 0%float 0%float 0%float.

(** ** The call as an engine runs it: objects on a heap

    In the source the entries of the breakdown are objects: [breakdown] maps
    a participant id to a reference, [breakdown.get(id)!] hands the reference
    out, and [entry.itemsTotal += ...], [entry.taxShare = ...] update the
    object in place; the array returned holds the references.  Here the
    objects live on a heap that is passed through the call.  The heap a call
    starts from stands for whatever state there is outside the call: the
    objects earlier calls returned, changed or not by their callers. *)

Module OnHeap.
Section Objects.
Context {num : Type} `{JsNumber num}.
Local Open Scope js_scope.

(** A reference to an object of type [PerPersonBreakdown]: its place on the
    heap. *)
Definition Ref : Type := nat.

Definition Heap : Type := list (PerPersonBreakdown num).

Definition deref (h : Heap) (p : Ref) : option (PerPersonBreakdown num) :=
  nth_error h p.

(** An object literal: a new object, behind those there are. *)
Definition allocate (h : Heap) (o : PerPersonBreakdown num) : Heap * Ref :=
  (h ++ [o], List.length h).

(** An assignment to fields of the object at [p], which then is [o]. *)
Fixpoint store (h : Heap) (p : Ref) (o : PerPersonBreakdown num) : Heap :=
  match h, p with
  | [], _ => []
  | _ :: h', O => o :: h'
  | x :: h', S p' => x :: store h' p' o
  end.

(** The heap and the three locals of the call. *)
Record Frame : Type := mkFrame {
  heap : Heap;
  breakdown : JsMap Ref;
  participantItemTotals : JsMap num;
  totalAssignedAmount : num
}.

(** The body of the inner [forEach], lines 68 to 92. *)
Definition processAssignment (item : LineItem num) (fr : Frame)
    (assignment : Assignment num) : Frame :=
  let share := participantShare item assignment in
  let current := orZero (map_get (participantItemTotals fr) (participant_id assignment)) in
  let totals := map_set (participantItemTotals fr) (participant_id assignment)
                  (current + share) in
  let assigned := totalAssignedAmount fr + share in
  let (h, bd) :=
    if map_has (breakdown fr) (participant_id assignment)
    then (heap fr, breakdown fr)
    else let (h', p) := allocate (heap fr) (newEntry assignment) in
         (h', map_set (breakdown fr) (participant_id assignment) p) in
  let h' :=
    match map_get bd (participant_id assignment) with
    | Some p =>
        match deref h p with
        | Some entry => store h p (addItems entry share)
        | None => h
        end
    | None => h
    end in
  mkFrame h' bd totals assigned.

(** The body of the outer [forEach], lines 63 to 94. *)
Definition processItem (fr : Frame) (item : LineItem num) : Frame :=
  if totalShares item >? zero
  then fold_left (processAssignment item) (assignments item) fr
  else fr.

(** The first loop, with [new Map()] twice and [let totalAssignedAmount = 0]
    before it. *)
Definition processItems (h : Heap) (items : list (LineItem num)) : Frame :=
  fold_left processItem items (mkFrame h [] [] zero).

(** The body of [breakdown.forEach], lines 104 to 111. *)
Definition prorate (taxes tips : num) (fr : Frame) (h : Heap) (kv : string * Ref) : Heap :=
  let (participant, p) := kv in
  match deref h p with
  | None => h
  | Some entry =>
      let itemsShare := orZero (map_get (participantItemTotals fr) participant) in
      let tax := if totalAssignedAmount fr >? zero
                 then (taxes * itemsShare) / totalAssignedAmount fr
                 else taxShare entry in
      let tip := if totalAssignedAmount fr >? zero
                 then (tips * itemsShare) / totalAssignedAmount fr
                 else tipShare entry in
      store h p
        (mkPerPersonBreakdown (participantId entry) (participantName entry)
           (itemsTotal entry) tax tip (itemsTotal entry + tax + tip))
  end.

(** [(a, b) => b.total - a.total], on references. *)
Definition compareTotals (h : Heap) (a b : Ref) : num :=
  match deref h a, deref h b with
  | Some x, Some y => total y - total x
  | _, _ => zero
  end.

(** The sort of the array of references, as [sortInsert] and [sort] above. *)
Fixpoint sortInsert (cmp : Ref -> Ref -> num) (x : Ref) (l : list Ref) : list Ref :=
  match l with
  | [] => [x]
  | y :: l' => if cmp x y >? zero then y :: sortInsert cmp x l' else x :: l
  end.

Definition sort (cmp : Ref -> Ref -> num) (l : list Ref) : list Ref :=
  fold_right (sortInsert cmp) [] l.

(** The call: the heap it leaves and the array of references it returns. *)
Definition calculatePerPersonBreakdown (h : Heap) (receipt : ReceiptData num)
  : Heap * list Ref :=
  let fr := processItems h (line_items receipt) in
  let h' := fold_left (prorate (taxTotal receipt) (tipTotal receipt) fr)
              (breakdown fr) (heap fr) in
  (h', sort (compareTotals h') (map_values (breakdown fr))).

(** What a caller reads through the returned references. *)
Definition returned (run : Heap * list Ref) : list (option (PerPersonBreakdown num)) :=
  List.map (deref (fst run)) (snd run).

End Objects.
End OnHeap.

Arguments OnHeap.Heap num : clear implicits.
Arguments OnHeap.Frame num : clear implicits.

(** The frame of a call that started from the heap [h0] holds what the state
    [st] of the function holds: the same numbers, the same participants in
    the same order, and behind each reference the entry that the function has
    for the participant.  The references are distinct and point behind [h0],
    and [h0] is still there. *)
Definition represents {num : Type} `{JsNumber num}
    (h0 : OnHeap.Heap num) (fr : OnHeap.Frame num) (st : State num) : Prop :=
  OnHeap.participantItemTotals fr = participantItemTotals st /\
  OnHeap.totalAssignedAmount fr = totalAssignedAmount st /\
  map_keys (OnHeap.breakdown fr) = map_keys (breakdown st) /\
  (forall k p, map_get (OnHeap.breakdown fr) k = Some p ->
               OnHeap.deref (OnHeap.heap fr) p = map_get (breakdown st) k) /\
  Forall (fun p => (List.length h0 <= p < List.length (OnHeap.heap fr))%nat)
         (map_values (OnHeap.breakdown fr)) /\
  NoDup (map_values (OnHeap.breakdown fr)) /\
  firstn (List.length h0) (OnHeap.heap fr) = h0.

(** ** Receipts with large amounts, in doubles *)





(** A line item whose total [unit_price_cents * quantity] overflows, beside
    two ordinary ones. *)
Definition receiptOverflow : ReceiptData float :=
  mkReceiptData
    [mkLineItem 0x1p+1023%float 4%float [mkAssignment "p1" "Alice" 1%float];
     mkLineItem 1000%float 1%float [mkAssignment "p2" "Bob" 1%float];
     mkLineItem 2000%float 1%float [mkAssignment "p3" "Carol" 1%float]]
    [] None.

Definition aliceOverflow : PerPersonBreakdown float :=
  mkPerPersonBreakdown "p1" "Alice" infinity nan nan nan.

Definition bobThousand : PerPersonBreakdown float :=
  mkPerPersonBreakdown "p2" "Bob" 1000%float 0%float 0%float 1000%float.

Definition carolTwoThousand : PerPersonBreakdown float :=
  mkPerPersonBreakdown "p3" "Carol" 2000%float 0%float 0%float 2000%float.

(** ** The order of the doubles *)

(** An integer that orders the numbers of a binary floating-point format as
    IEEE 754 compares them: both zeros at 0, a finite number at its mantissa
    scaled by its exponent above the least one, the infinities beyond every
    finite number.  NaN has no place in the order; it is given 0. *)
Definition rank (prec emax : Z) (x : spec_float) : Z :=
  match x with
  | S754_zero _ => 0
  | S754_nan => 0
  | S754_infinity s => cond_Zopp s (2 ^ (emax - SpecFloat.emin prec emax))
  | S754_finite s m e => cond_Zopp s (Zpos m * 2 ^ (e - SpecFloat.emin prec emax))
  end%Z.

Definition isNumber (x : spec_float) : bool :=
  match x with S754_nan => false | _ => true end.

Definition rank64 (x : float) : Z := rank prec emax (Prim2SF x).

(** No total of the list is NaN. *)
Definition totalsAreNumbers (l : list (PerPersonBreakdown float)) : Prop :=
  Forall (fun e => PrimFloat.is_nan (total e) = false) l.

(** * Facts *)

(** ** Facts about insertion-ordered maps *)

Section JsMapFacts.
Variable V : Type.
Implicit Types (m : JsMap V) (k : string) (v : V).

Lemma map_get_set_same m k v : map_get (map_set m k v) k = Some v.
Proof.
  induction m as [|[k' v'] m IH]; simpl.
  - now rewrite String.eqb_refl.
  - destruct (String.eqb k k') eqn:E; simpl; rewrite E; auto.
Qed.

Lemma map_get_set_other m k k' v :
  k' <> k -> map_get (map_set m k v) k' = map_get m k'.
Proof.
  intros Hne. induction m as [|[k0 v0] m IH]; simpl.
  - destruct (String.eqb_spec k' k); congruence.
  - destruct (String.eqb_spec k k0) as [->|Hk]; simpl.
    + destruct (String.eqb_spec k' k0); congruence.
    + now rewrite IH.
Qed.

Lemma map_set_set m k v v' : map_set (map_set m k v) k v' = map_set m k v'.
Proof.
  induction m as [|[k0 v0] m IH]; simpl.
  - now rewrite String.eqb_refl.
  - destruct (String.eqb k k0) eqn:E; simpl; rewrite E; congruence.
Qed.

Lemma map_has_keys m k : map_has m k = existsb (String.eqb k) (map_keys m).
Proof.
  unfold map_has. induction m as [|[k0 v0] m IH]; simpl; auto.
  destruct (String.eqb k k0); auto.
Qed.

Lemma map_keys_set m k v :
  map_keys (map_set m k v) = if map_has m k then map_keys m else map_keys m ++ [k].
Proof.
  unfold map_has. induction m as [|[k0 v0] m IH]; simpl; auto.
  destruct (String.eqb k k0) eqn:E; simpl; auto.
  rewrite IH. now destruct (map_get m k).
Qed.

Lemma map_get_In m k v : map_get m k = Some v -> In (k, v) m.
Proof.
  induction m as [|[k0 v0] m IH]; simpl; [discriminate|].
  destruct (String.eqb_spec k k0) as [->|Hk]; intros Hg.
  - left. congruence.
  - right. auto.
Qed.

Lemma In_map_get m k v :
  NoDup (map_keys m) -> In (k, v) m -> map_get m k = Some v.
Proof.
  induction m as [|[k0 v0] m IH]; simpl; [tauto|].
  intros Hnd [Heq|Hin]; inversion Hnd as [|? ? Hnotin Hnd']; subst.
  - inversion Heq; subst. now rewrite String.eqb_refl.
  - destruct (String.eqb_spec k k0) as [->|Hk]; auto.
    exfalso. apply Hnotin. unfold map_keys.
    change k0 with (fst (k0, v)). now apply in_map.
Qed.

Lemma map_get_Some_keys m k : In k (map_keys m) <-> exists v, map_get m k = Some v.
Proof.
  induction m as [|[k0 v0] m IH]; simpl.
  - split; [tauto|intros [? ?]; discriminate].
  - destruct (String.eqb_spec k k0) as [->|Hk].
    + split; eauto.
    + rewrite <- IH. split; [intros [?|?]; congruence || auto | auto].
Qed.
End JsMapFacts.

Lemma existsb_eqb_In (k : string) (l : list string) :
  existsb (String.eqb k) l = true <-> In k l.
Proof.
  rewrite existsb_exists. split.
  - intros [x [Hin Heq]]. apply String.eqb_eq in Heq. now subst.
  - intros Hin. exists k. split; auto. apply String.eqb_refl.
Qed.

Lemma firstOccurrences_snoc (ids : list string) (k : string) :
  firstOccurrences (ids ++ [k]) =
  if existsb (String.eqb k) (firstOccurrences ids)
  then firstOccurrences ids else firstOccurrences ids ++ [k].
Proof. unfold firstOccurrences. now rewrite fold_left_app. Qed.

Lemma firstOccurrences_In (ids : list string) (k : string) :
  In k (firstOccurrences ids) <-> In k ids.
Proof.
  induction ids as [|x ids IH] using rev_ind; [reflexivity|].
  rewrite firstOccurrences_snoc, in_app_iff. simpl.
  destruct (existsb (String.eqb x) (firstOccurrences ids)) eqn:E.
  - apply existsb_eqb_In in E. rewrite IH.
    split; [tauto|]. intros [?|[<-|[]]]; auto. now apply IH.
  - rewrite in_app_iff, IH. simpl. tauto.
Qed.

Lemma firstOccurrences_NoDup (ids : list string) : NoDup (firstOccurrences ids).
Proof.
  induction ids as [|x ids IH] using rev_ind; [constructor|].
  rewrite firstOccurrences_snoc.
  destruct (existsb (String.eqb x) (firstOccurrences ids)) eqn:E; auto.
  apply NoDup_app; auto.
  - constructor; [simpl; tauto|constructor].
  - intros y Hy [<-|[]].
    apply existsb_eqb_In in Hy. congruence.
Qed.

(** ** The first loop, assignment by assignment *)

Section VisitsFacts.
Context {num : Type} `{JsNumber num}.
Local Open Scope js_scope.

Lemma processItem_visits (st : State num) (item : LineItem num) :
  processItem st item = fold_left visit (visits [item]) st.
Proof.
  unfold processItem, visits, assigned. simpl. rewrite app_nil_r.
  destruct (totalShares item >? zero); [|reflexivity].
  generalize st. induction (assignments item) as [|a l IH]; simpl; auto.
Qed.

Lemma processItems_from_visits (items : list (LineItem num)) (st : State num) :
  fold_left processItem items st = fold_left visit (visits items) st.
Proof.
  revert st. induction items as [|item items IH]; intros st; [reflexivity|].
  replace (visits (item :: items)) with (visits [item] ++ visits items)
    by (unfold visits; simpl; now rewrite app_nil_r).
  simpl fold_left at 1. rewrite fold_left_app, IH. f_equal.
  apply processItem_visits.
Qed.

Lemma processItems_visits (items : list (LineItem num)) :
  processItems items = fold_left visit (visits items) initialState.
Proof. apply processItems_from_visits. Qed.

Lemma visit_snoc (t : list Visit) (v : Visit) (st : State num) :
  fold_left visit (t ++ [v]) st = visit (fold_left visit t st) v.
Proof. now rewrite fold_left_app. Qed.

Lemma breakdown_visit (st : State num) (v : Visit) :
  breakdown (visit st v) =
  map_set (breakdown st) (visitor v)
    (addItems (match map_get (breakdown st) (visitor v) with
               | Some entry => entry
               | None => newEntry (snd v)
               end) (credit v)).
Proof.
  unfold visit, processAssignment, visitor, credit, map_has. simpl.
  destruct (map_get (breakdown st) (participant_id (snd v))) as [entry|] eqn:E.
  - now rewrite E.
  - now rewrite map_get_set_same, map_set_set.
Qed.

Lemma creditedTo_snoc (k : string) (t : list Visit) (v : Visit) :
  creditedTo k (t ++ [v]) =
  if String.eqb k (visitor v) then creditedTo k t ++ [credit v] else creditedTo k t.
Proof.
  unfold creditedTo. rewrite filter_app. simpl.
  destruct (String.eqb k (visitor v)); simpl.
  - now rewrite map_app.
  - now rewrite app_nil_r.
Qed.

(** The participants of the breakdown map, in insertion order. *)
Lemma breakdown_keys (t : list Visit) :
  map_keys (breakdown (fold_left visit t initialState)) =
  firstOccurrences (List.map visitor t).
Proof.
  induction t as [|v t IH] using rev_ind; [reflexivity|].
  rewrite visit_snoc, map_app. cbn [List.map].
  rewrite firstOccurrences_snoc, breakdown_visit, map_keys_set, map_has_keys, IH.
  reflexivity.
Qed.

Lemma breakdown_NoDup (t : list Visit) :
  NoDup (map_keys (breakdown (fold_left visit t initialState))).
Proof. rewrite breakdown_keys. apply firstOccurrences_NoDup. Qed.

(** What the first loop leaves in an entry of the breakdown map. *)
Lemma breakdown_entry (t : list Visit) (k : string) (e : PerPersonBreakdown num) :
  map_get (breakdown (fold_left visit t initialState)) k = Some e ->
  participantId e = k /\
  itemsTotal e = sumFrom zero (creditedTo k t) /\
  taxShare e = zero /\ tipShare e = zero /\ total e = zero.
Proof.
  revert e. induction t as [|v t IH] using rev_ind; intros e; [discriminate|].
  rewrite visit_snoc, breakdown_visit, creditedTo_snoc.
  set (st := fold_left visit t initialState) in *.
  destruct (String.eqb_spec k (visitor v)) as [->|Hk].
  - rewrite map_get_set_same. intros [= <-].
    unfold sumFrom. rewrite fold_left_app. simpl.
    destruct (map_get (breakdown st) (visitor v)) as [e0|] eqn:E.
    + destruct (IH _ eq_refl) as (Hid & Hit & Htax & Htip & Htot).
      simpl. rewrite Hit. auto.
    + assert (Hnone : creditedTo (visitor v) t = []).
      { unfold creditedTo.
        assert (Hk : ~ In (visitor v) (List.map visitor t)).
        { rewrite <- firstOccurrences_In, <- breakdown_keys.
          fold st. rewrite map_get_Some_keys. intros [? ?]. congruence. }
        clear - Hk. induction t as [|w t IH]; [reflexivity|].
        simpl in *. destruct (String.eqb_spec (visitor v) (visitor w)).
        - exfalso. apply Hk. left. congruence.
        - apply IH. tauto. }
      rewrite Hnone. simpl. auto.
  - rewrite map_get_set_other by assumption. apply IH.
Qed.

(** What the first loop leaves in [participantItemTotals]. *)
Lemma participantItemTotals_get (t : list Visit) (k : string) :
  map_get (participantItemTotals (fold_left visit t initialState)) k =
  fold_left (fun current x => Some (orZero current + x)) (creditedTo k t) None.
Proof.
  induction t as [|v t IH] using rev_ind; [reflexivity|].
  rewrite visit_snoc, creditedTo_snoc.
  unfold visit at 1, processAssignment. simpl. fold (visitor v).
  destruct (String.eqb_spec k (visitor v)) as [->|Hk].
  - rewrite map_get_set_same, fold_left_app. simpl. now rewrite IH.
  - now rewrite map_get_set_other.
Qed.

End VisitsFacts.

(** ** The returned list *)

Section Output.
Context {num : Type} `{JsNumber num}.
Local Open Scope js_scope.
Implicit Types (r : ReceiptData num) (e : PerPersonBreakdown num).

Lemma sortInsert_perm cmp e (l : list (PerPersonBreakdown num)) :
  Permutation (sortInsert cmp e l) (e :: l).
Proof.
  induction l as [|y l IH]; simpl; auto.
  destruct (cmp e y >? zero); auto.
  rewrite IH. apply perm_swap.
Qed.

Lemma sort_perm cmp (l : list (PerPersonBreakdown num)) :
  Permutation (sort cmp l) l.
Proof.
  induction l as [|x l IH]; simpl; auto.
  rewrite sortInsert_perm. now constructor.
Qed.

Lemma calculate_In r e :
  In e (calculatePerPersonBreakdown r) <-> In e (proratedEntries r).
Proof.
  unfold calculatePerPersonBreakdown.
  split; apply Permutation_in; [|symmetry]; apply sort_perm.
Qed.

Lemma prorate_fields taxes tips (st : State num) k e0 :
  let e := snd (prorate taxes tips st (k, e0)) in
  participantId e = participantId e0 /\
  participantName e = participantName e0 /\
  itemsTotal e = itemsTotal e0.
Proof. simpl. auto. Qed.

(** Every returned entry is an entry of the breakdown map after the
    proration loop, filed under its own participant id. *)
Lemma output_entry r e :
  In e (calculatePerPersonBreakdown r) ->
  let st := processItems (line_items r) in
  exists k e0,
    map_get (breakdown st) k = Some e0 /\
    participantId e0 = k /\
    e = snd (prorate (taxTotal r) (tipTotal r) st (k, e0)).
Proof.
  rewrite calculate_In. unfold proratedEntries, map_values.
  rewrite map_map, in_map_iff. intros [[k e0] [<- Hin]].
  rewrite processItems_visits in *.
  apply In_map_get in Hin; [|apply breakdown_NoDup].
  destruct (breakdown_entry _ _ Hin) as [Hid _].
  exists k, e0. auto.
Qed.

Lemma entry_output r k e0 :
  let st := processItems (line_items r) in
  map_get (breakdown st) k = Some e0 ->
  In (snd (prorate (taxTotal r) (tipTotal r) st (k, e0)))
     (calculatePerPersonBreakdown r).
Proof.
  intros st Hget. rewrite calculate_In. unfold proratedEntries, map_values.
  rewrite map_map, in_map_iff. exists (k, e0). split; auto.
  now apply map_get_In.
Qed.

Lemma output_itemsTotal r e :
  In e (calculatePerPersonBreakdown r) ->
  itemsTotal e = sumFrom zero (creditedTo (participantId e) (visits (line_items r))).
Proof.
  intros Hin. destruct (output_entry _ _ Hin) as (k & e0 & Hget & Hid & ->).
  rewrite processItems_visits in Hget.
  destruct (breakdown_entry _ _ Hget) as (_ & Hit & _).
  simpl. now rewrite Hid.
Qed.

Lemma visits_In (items : list (LineItem num)) (v : Visit) :
  In v (visits items) <->
  In (fst v) items /\ assigned (fst v) = true /\ In (snd v) (assignments (fst v)).
Proof.
  unfold visits. rewrite in_flat_map. split.
  - intros [item [Hitem Hv]]. destruct (assigned item) eqn:E; [|contradiction].
    apply in_map_iff in Hv as [a [<- Ha]]. simpl. auto.
  - intros (Hitem & Hpos & Ha). exists (fst v). split; auto.
    rewrite Hpos. apply in_map_iff. exists (snd v). split; auto.
    now destruct v.
Qed.

(** Who is listed: the participants of the runs of the inner loop body. *)
Lemma output_participants r (p : string) :
  (exists e, In e (calculatePerPersonBreakdown r) /\ participantId e = p) <->
  In p (List.map visitor (visits (line_items r))).
Proof.
  rewrite <- firstOccurrences_In, <- breakdown_keys, <- processItems_visits.
  rewrite map_get_Some_keys. split.
  - intros [e [Hin <-]].
    destruct (output_entry _ _ Hin) as (k & e0 & Hget & Hid & ->).
    simpl. rewrite Hid. eauto.
  - intros [e0 Hget]. eexists. split; [apply (entry_output r _ Hget)|].
    simpl. rewrite processItems_visits in Hget.
    now destruct (breakdown_entry _ _ Hget).
Qed.

(** The proration of lines 105 to 110 when the guard passes. *)
Lemma output_prorated r e :
  (totalAssignedAmount (processItems (line_items r)) >? zero) = true ->
  In e (calculatePerPersonBreakdown r) ->
  let st := processItems (line_items r) in
  let itemsShare := orZero (map_get (participantItemTotals st) (participantId e)) in
  taxShare e = taxTotal r * itemsShare / totalAssignedAmount st /\
  tipShare e = tipTotal r * itemsShare / totalAssignedAmount st /\
  total e = itemsTotal e + taxShare e + tipShare e.
Proof.
  intros Hguard Hin. destruct (output_entry _ _ Hin) as (k & e0 & Hget & Hid & ->).
  simpl. rewrite Hguard, Hid. auto.
Qed.

(** The guard of line 106 leaves tax and tip unallocated. *)
Lemma output_unallocated r e :
  (totalAssignedAmount (processItems (line_items r)) >? zero) = false ->
  In e (calculatePerPersonBreakdown r) ->
  taxShare e = zero /\ tipShare e = zero /\
  total e = itemsTotal e + zero + zero.
Proof.
  intros Hguard Hin. destruct (output_entry _ _ Hin) as (k & e0 & Hget & _ & ->).
  rewrite processItems_visits in Hget.
  destruct (breakdown_entry _ _ Hget) as (_ & _ & Htax & Htip & _).
  simpl. rewrite Hguard, Htax, Htip. auto.
Qed.

Lemma processItem_unassigned (st : State num) (item : LineItem num) :
  assigned item = false -> processItem st item = st.
Proof. unfold assigned, processItem. now intros ->. Qed.

Lemma zero_shares_unassigned (item : LineItem num) :
  totalShares item = zero -> assigned item = false.
Proof. unfold assigned. intros ->. apply gtb_zero_zero. Qed.

Lemma processItems_drop (pre post : list (LineItem num)) (item : LineItem num) :
  assigned item = false ->
  processItems (pre ++ item :: post) = processItems (pre ++ post).
Proof.
  intros Hun. unfold processItems. rewrite !fold_left_app. simpl.
  now rewrite processItem_unassigned.
Qed.

Lemma processItems_all_unassigned (items : list (LineItem num)) :
  Forall (fun item => assigned item = false) items ->
  processItems items = initialState.
Proof.
  unfold processItems. generalize (@initialState num _).
  induction 1 as [|item items Hun _ IH]; intros; simpl; auto.
  now rewrite processItem_unassigned.
Qed.
End Output.

(** ** Exact arithmetic *)

Section Exact.
Local Open Scope Qc_scope.
Implicit Types (r : ReceiptData Qc) (e : PerPersonBreakdown Qc).




Lemma orZero_Some (x : Qc) : orZero (Some x) = x.
Proof.
  unfold orZero. simpl. destruct (Qc_eq_bool x 0) eqn:E; simpl; auto.
  symmetry. now apply Qc_eq_bool_correct.
Qed.



(** In exact arithmetic [participantItemTotals] and the entries'
    [itemsTotal] hold the same sums. *)
Lemma itemsShare_exact (l : list Qc) :
  orZero (fold_left (fun current x => Some (orZero current + x)%js) l None) =
  sumFrom zero l.
Proof.
  destruct l as [|x l]; [reflexivity|]. cbn [fold_left].
  assert (Hs : forall a, fold_left (fun current x => Some (orZero current + x)%js) l (Some a)
                         = Some (sumFrom a l)).
  { induction l as [|y l IH]; intros a; [reflexivity|].
    cbn [fold_left]. rewrite orZero_Some. apply IH. }
  rewrite Hs, orZero_Some. reflexivity.
Qed.

Lemma output_shares r e :
  In e (calculatePerPersonBreakdown r) ->
  let st := processItems (line_items r) in
  Qc_gtb (totalAssignedAmount st) 0 = true ->
  taxShare e = taxTotal r * itemsTotal e / totalAssignedAmount st /\
  tipShare e = tipTotal r * itemsTotal e / totalAssignedAmount st /\
  total e = itemsTotal e + taxShare e + tipShare e.
Proof.
  intros Hin st Hpos.
  assert (Hshare : orZero (map_get (participantItemTotals st) (participantId e))
                   = itemsTotal e).
  { rewrite (output_itemsTotal r e Hin).
    unfold st. rewrite processItems_visits, participantItemTotals_get.
    apply itemsShare_exact. }
  destruct (@output_prorated Qc exact r e Hpos Hin) as (Htax & Htip & Htot).
  fold st in Htax, Htip. rewrite Hshare in Htax, Htip. auto.
Qed.

(** *** The items totals add up to the line totals *)




Lemma totalShares_sumList (item : LineItem Qc) :
  totalShares item = sumList (List.map (@shares Qc) (assignments item)).
Proof.
  unfold totalShares. to_Qc.
  assert (Hg : forall l a,
             fold_left (fun sum x => sum + shares x) l a
             = a + sumList (List.map (@shares Qc) l)).
  { induction l as [|x l IH]; intros a; simpl; [ring|]. rewrite IH. ring. }
  rewrite Hg. ring.
Qed.







(** *** Scaling the shares of a line item *)




End Exact.

Section InsertionOrder.
Context {num : Type} `{JsNumber num}.

(** The entries handed to the sort stand in the insertion order of the
    breakdown map: the order in which the inner loop body met each
    participant first. *)
Lemma proratedEntries_order (r : ReceiptData num) :
  List.map (@participantId num) (proratedEntries r) =
  firstOccurrences (List.map visitor (visits (line_items r))).
Proof.
  rewrite <- breakdown_keys, <- processItems_visits.
  unfold proratedEntries, map_values, map_keys. rewrite !map_map.
  apply map_ext_in. intros [k e0] Hin. simpl.
  rewrite processItems_visits in Hin.
  apply In_map_get in Hin; [|apply breakdown_NoDup].
  now destruct (breakdown_entry _ _ Hin).
Qed.
End InsertionOrder.

(** ** The sort under a consistent comparator *)

Section Order.
Context {num : Type} `{JsNumber num}.
Local Open Scope js_scope.
Implicit Types (a b c x y : PerPersonBreakdown num) (l : list (PerPersonBreakdown num)).

Lemma consistent_asymmetric l a b :
  consistentComparator l = true -> In a l -> In b l ->
  comesAfter a b = true -> comesAfter b a = false.
Proof.
  unfold consistentComparator. intros Hc Ha Hb Hab.
  rewrite forallb_forall in Hc. specialize (Hc a Ha).
  rewrite forallb_forall in Hc. specialize (Hc b Hb).
  apply andb_prop in Hc as [Hasym _]. rewrite Hab in Hasym.
  now apply negb_true_iff in Hasym.
Qed.

Lemma consistent_negatively_transitive l a b c :
  consistentComparator l = true -> In a l -> In b l -> In c l ->
  comesAfter a b = false -> comesAfter b c = false -> comesAfter a c = false.
Proof.
  unfold consistentComparator. intros Hc Ha Hb Hcc Hab Hbc.
  rewrite forallb_forall in Hc. specialize (Hc a Ha).
  rewrite forallb_forall in Hc. specialize (Hc b Hb).
  apply andb_prop in Hc as [_ Hneg].
  rewrite forallb_forall in Hneg. specialize (Hneg c Hcc).
  rewrite Hab, Hbc in Hneg. now apply negb_true_iff in Hneg.
Qed.

Lemma consistent_irreflexive l a :
  consistentComparator l = true -> In a l -> comesAfter a a = false.
Proof.
  intros Hc Ha. destruct (comesAfter a a) eqn:E; [|reflexivity].
  rewrite <- E at 1. now apply consistent_asymmetric with (l := l).
Qed.

Lemma sortInsert_sorted l0 x l :
  consistentComparator l0 = true -> In x l0 -> incl l l0 ->
  StronglySorted (fun a b => comesAfter a b = false) l ->
  StronglySorted (fun a b => comesAfter a b = false) (sortInsert compareTotals x l).
Proof.
  intros Hc Hx Hincl Hsorted.
  induction Hsorted as [|y l Hsorted IH Hall]; cbn [sortInsert].
  - repeat constructor.
  - assert (Hy : In y l0) by (apply Hincl; now left).
    assert (Hl : incl l l0) by (intros z Hz; apply Hincl; now right).
    fold (comesAfter x y). destruct (comesAfter x y) eqn:E.
    + constructor; [now apply IH|].
      apply (Permutation_Forall (Permutation_sym (sortInsert_perm _ x l))).
      constructor; [|exact Hall].
      now apply consistent_asymmetric with (l := l0).
    + constructor; [now constructor|].
      constructor; [exact E|].
      apply Forall_forall. intros z Hz.
      rewrite Forall_forall in Hall.
      apply consistent_negatively_transitive with (l := l0) (b := y); auto.
Qed.

Lemma sort_sorted l0 l :
  consistentComparator l0 = true -> incl l l0 ->
  StronglySorted (fun a b => comesAfter a b = false) (sort compareTotals l).
Proof.
  intros Hc. induction l as [|x l IH]; intros Hincl; cbn [sort fold_right].
  - constructor.
  - fold (sort compareTotals l). apply sortInsert_sorted with (l0 := l0); auto.
    + apply Hincl. now left.
    + intros z Hz. apply Hincl. right.
      apply (Permutation_in _ (sort_perm compareTotals l) Hz).
    + apply IH. intros z Hz. apply Hincl. now right.
Qed.

Lemma sortInsert_stable l0 a x l :
  consistentComparator l0 = true -> In a l0 -> In x l0 -> incl l l0 ->
  filter (tied a) (sortInsert compareTotals x l) = filter (tied a) (x :: l).
Proof.
  intros Hc Ha Hx. induction l as [|y l IH]; intros Hincl; [reflexivity|].
  assert (Hy : In y l0) by (apply Hincl; now left).
  assert (Hl : incl l l0) by (intros z Hz; apply Hincl; now right).
  cbn [sortInsert]. fold (comesAfter x y).
  destruct (comesAfter x y) eqn:E; [|reflexivity].
  cbn [filter] in *. rewrite (IH Hl).
  destruct (tied a x) eqn:Tx, (tied a y) eqn:Ty; try reflexivity.
  exfalso. unfold tied in Tx, Ty.
  apply andb_prop in Tx as [_ Hxa]. apply andb_prop in Ty as [Hay _].
  apply negb_true_iff in Hxa, Hay.
  rewrite (@consistent_negatively_transitive l0 x a y Hc Hx Ha Hy Hxa Hay) in E.
  discriminate.
Qed.

Lemma sort_stable l0 a l :
  consistentComparator l0 = true -> In a l0 -> incl l l0 ->
  filter (tied a) (sort compareTotals l) = filter (tied a) l.
Proof.
  intros Hc Ha. induction l as [|x l IH]; intros Hincl; [reflexivity|].
  cbn [sort fold_right]. fold (sort compareTotals l).
  rewrite sortInsert_stable with (l0 := l0); auto.
  - cbn [filter]. rewrite IH; [reflexivity|].
    intros z Hz. apply Hincl. now right.
  - apply Hincl. now left.
  - intros z Hz. apply Hincl. right.
    apply (Permutation_in _ (sort_perm compareTotals l) Hz).
Qed.

Lemma equal_totals_tied l a b :
  consistentComparator l = true -> In a l -> In b l ->
  total a = total b -> tied a b = true.
Proof.
  intros Hc Ha Hb Heq.
  pose proof (@consistent_irreflexive l a Hc Ha) as Haa.
  unfold tied, comesAfter, compareTotals in *.
  rewrite <- Heq, Haa. reflexivity.
Qed.

(** In a list that no comparison would reorder, any two entries stand in
    one of the two orders. *)
Lemma sorted_pair (R : PerPersonBreakdown num -> PerPersonBreakdown num -> Prop) l a b :
  StronglySorted R l -> In a l -> In b l -> a <> b -> R a b \/ R b a.
Proof.
  induction 1 as [|x l Hsorted IH Hall]; [intros []|].
  rewrite Forall_forall in Hall.
  intros [<-|Ha] [<-|Hb] Hne; auto; congruence.
Qed.
End Order.

(** ** Rounding and the order of a binary format *)

Unset Implicit Arguments.

Section Rounding.
Variables prec emax : Z.
Hypothesis Hprec : (0 < prec)%Z.
Hypothesis Hemax : (prec < emax)%Z.
Local Open Scope Z_scope.

Lemma digits2_bounds (m : positive) :
  2 ^ (Zpos (digits2_pos m) - 1) <= Zpos m < 2 ^ Zpos (digits2_pos m).
Proof.
  induction m as [m IH|m IH|]; cbn [digits2_pos].
  - rewrite Pos2Z.inj_succ. replace (Z.succ (Z.pos (digits2_pos m)) - 1) with (Z.pos (digits2_pos m)) by lia.
    rewrite Z.pow_succ_r by lia.
    replace (Z.pos (digits2_pos m)) with (Z.succ (Z.pos (digits2_pos m) - 1)) at 1 by lia.
    rewrite Z.pow_succ_r by lia. lia.
  - rewrite Pos2Z.inj_succ. replace (Z.succ (Z.pos (digits2_pos m)) - 1) with (Z.pos (digits2_pos m)) by lia.
    rewrite Z.pow_succ_r by lia.
    replace (Z.pos (digits2_pos m)) with (Z.succ (Z.pos (digits2_pos m) - 1)) at 1 by lia.
    rewrite Z.pow_succ_r by lia. lia.
  - simpl. lia.
Qed.

Lemma iter_pos_iter (A : Type) (f : A -> A) (p : positive) (x : A) :
  iter_pos f p x = Pos.iter f x p.
Proof.
  revert x. induction p as [p IH|p IH|]; intros x; cbn [iter_pos Pos.iter].
  - rewrite !IH. now rewrite <- !Pos.iter_swap.
  - now rewrite !IH.
  - reflexivity.
Qed.

Lemma shr_1_m (mrs : shr_record) :
  0 <= shr_m mrs -> shr_m (shr_1 mrs) = Z.div2 (shr_m mrs).
Proof.
  destruct mrs as [m r s]. cbn [shr_m]. intros Hm.
  destruct m as [|[p|p|]|p]; try reflexivity. lia.
Qed.

Lemma shr_m_iter (p : positive) (mrs : shr_record) :
  0 <= shr_m mrs ->
  shr_m (iter_pos shr_1 p mrs) = shr_m mrs / 2 ^ Zpos p.
Proof.
  intros Hm. rewrite iter_pos_iter.
  rewrite <- Z.shiftr_div_pow2 by lia.
  change (Z.shiftr (shr_m mrs) (Zpos p)) with (Pos.iter Z.div2 (shr_m mrs) p).
  induction p as [|p IH] using Pos.peano_ind.
  - cbn [Pos.iter]. now apply shr_1_m.
  - rewrite !Pos.iter_succ. rewrite shr_1_m.
    + now rewrite IH.
    + rewrite IH. clear IH.
      induction p as [|p IH] using Pos.peano_ind.
      * cbn [Pos.iter]. rewrite Z.div2_div. apply Z.div_pos; lia.
      * rewrite Pos.iter_succ. rewrite Z.div2_div. apply Z.div_pos; lia.
Qed.

(** Rounding to the format never moves a mantissa to zero. *)
Lemma shr_fexp_positive (m : positive) (e : Z) (l : location) :
  SpecFloat.emin prec emax <= e ->
  0 < shr_m (fst (shr_fexp prec emax (Zpos m) e l)) /\
  SpecFloat.emin prec emax <= snd (shr_fexp prec emax (Zpos m) e l).
Proof.
  intros He. unfold shr_fexp, shr. cbn [Zdigits2].
  set (d := Zpos (digits2_pos m)).
  set (n := SpecFloat.fexp prec emax (d + e) - e).
  assert (Hn : n < d) by (unfold n, SpecFloat.fexp; lia).
  assert (Hrec : shr_m (shr_record_of_loc (Zpos m) l) = Zpos m)
    by (destruct l as [|[]]; reflexivity).
  destruct n as [|p|p] eqn:En; cbn [fst snd].
  - rewrite Hrec. split; lia.
  - rewrite shr_m_iter by (rewrite Hrec; lia). rewrite Hrec.
    split; [|lia].
    apply Z.div_str_pos. split; [lia|].
    pose proof (digits2_bounds m) as [Hlo _]. fold d in Hlo.
    apply Z.le_trans with (2 ^ (d - 1)); [|exact Hlo].
    apply Z.pow_le_mono_r; lia.
  - rewrite Hrec. split; lia.
Qed.

Lemma round_nearest_even_positive (m : Z) (l : location) :
  0 < m -> 0 < round_nearest_even m l.
Proof.
  intros Hm. unfold round_nearest_even.
  destruct l as [|[]]; try lia. destruct (Z.even m); lia.
Qed.

Lemma binary_round_aux_sign (s : bool) (m : positive) (e : Z) (l : location) :
  SpecFloat.emin prec emax <= e ->
  (exists m' e', binary_round_aux prec emax s (Zpos m) e l = S754_finite s m' e') \/
  binary_round_aux prec emax s (Zpos m) e l = S754_infinity s.
Proof.
  intros He. unfold binary_round_aux.
  destruct (shr_fexp_positive m e l He) as [Hpos He'].
  destruct (shr_fexp prec emax (Zpos m) e l) as [mrs' e']. cbn [fst snd] in *.
  pose proof (round_nearest_even_positive (shr_m mrs') (loc_of_shr_record mrs') Hpos) as Hr.
  destruct (round_nearest_even (shr_m mrs') (loc_of_shr_record mrs')) as [|q|q] eqn:Eq;
    try lia.
  destruct (shr_fexp_positive q e' loc_Exact He') as [Hpos2 _].
  destruct (shr_fexp prec emax (Zpos q) e' loc_Exact) as [mrs'' e'']. cbn [fst snd] in *.
  destruct (shr_m mrs'') as [|m2|m2]; try lia.
  destruct (e'' <=? emax - prec); eauto.
Qed.

Lemma iter_xO_value (m d : positive) :
  Zpos (Pos.iter xO m d) = Zpos m * 2 ^ Zpos d.
Proof.
  induction d as [|d IH] using Pos.peano_ind.
  - cbn [Pos.iter]. rewrite Pos2Z.inj_xO. change (2 ^ 1) with 2. lia.
  - rewrite Pos.iter_succ, Pos2Z.inj_xO, IH, Pos2Z.inj_succ, Z.pow_succ_r by lia. lia.
Qed.

Lemma shl_align_value (m : positive) (e e' : Z) :
  e' <= e ->
  Zpos (fst (shl_align m e e')) = Zpos m * 2 ^ (e - e').
Proof.
  intros He. unfold shl_align.
  destruct (e' - e) as [|d|d] eqn:Ed; cbn [fst snd].
  - replace (e - e') with 0 by lia. lia.
  - lia.
  - replace (e - e') with (Zpos d) by lia. apply iter_xO_value.
Qed.

Lemma shl_align_exponent (m : positive) (e e' : Z) :
  SpecFloat.emin prec emax <= e -> SpecFloat.emin prec emax <= e' -> SpecFloat.emin prec emax <= snd (shl_align m e e').
Proof.
  intros He He'. unfold shl_align. destruct (e' - e); cbn [snd]; lia.
Qed.

Lemma binary_round_sign (s : bool) (m : positive) (e : Z) :
  SpecFloat.emin prec emax <= e ->
  (exists m' e', binary_round prec emax s m e = S754_finite s m' e') \/
  binary_round prec emax s m e = S754_infinity s.
Proof.
  intros He. unfold binary_round.
  pose proof (shl_align_exponent m e (SpecFloat.fexp prec emax (Zpos (digits2_pos m) + e)) He)
    as Hexp.
  destruct (shl_align m e (SpecFloat.fexp prec emax (Zpos (digits2_pos m) + e))) as [mz ez].
  cbn [snd] in Hexp. apply binary_round_aux_sign. apply Hexp.
  unfold SpecFloat.fexp. lia.
Qed.

Lemma valid_exponent (s : bool) (m : positive) (e : Z) :
  SpecFloat.valid_binary prec emax (S754_finite s m e) = true ->
  SpecFloat.emin prec emax <= e <= emax - prec /\ Zpos (digits2_pos m) <= prec /\
  (SpecFloat.emin prec emax < e -> Zpos (digits2_pos m) = prec).
Proof.
  cbn [SpecFloat.valid_binary]. unfold bounded, canonical_mantissa, SpecFloat.fexp.
  intros Hv. apply andb_prop in Hv as [Hc Hb].
  apply Z.eqb_eq in Hc. apply Z.leb_le in Hb. lia.
Qed.

Lemma pow2_pos (k : Z) : 0 <= k -> 0 < 2 ^ k.
Proof. intros Hk. apply Z.pow_pos_nonneg; lia. Qed.

Lemma finite_rank_bound (s : bool) (m : positive) (e : Z) :
  SpecFloat.valid_binary prec emax (S754_finite s m e) = true ->
  0 < Zpos m * 2 ^ (e - SpecFloat.emin prec emax) < 2 ^ (emax - SpecFloat.emin prec emax).
Proof.
  intros Hv. destruct (valid_exponent s m e Hv) as (He & Hd & _).
  pose proof (digits2_bounds m) as [_ Hm].
  pose proof (pow2_pos (e - SpecFloat.emin prec emax) ltac:(lia)) as Hp.
  split; [lia|].
  apply Z.lt_le_trans with (2 ^ prec * 2 ^ (e - SpecFloat.emin prec emax)).
  - apply Z.mul_lt_mono_pos_r; [exact Hp|].
    apply Z.lt_le_trans with (2 ^ Zpos (digits2_pos m)); [exact Hm|].
    apply Z.pow_le_mono_r; lia.
  - rewrite <- Z.pow_add_r by lia. apply Z.pow_le_mono_r; lia.
Qed.

(** Two positive doubles compare as their exponents, then as their
    mantissas. *)
Lemma compare_magnitudes (s1 s2 : bool) (m1 m2 : positive) (e1 e2 : Z) :
  SpecFloat.valid_binary prec emax (S754_finite s1 m1 e1) = true ->
  SpecFloat.valid_binary prec emax (S754_finite s2 m2 e2) = true ->
  match e1 ?= e2 with
  | Lt => Lt
  | Gt => Gt
  | Eq => Pos.compare_cont Eq m1 m2
  end
  = (Zpos m1 * 2 ^ (e1 - SpecFloat.emin prec emax) ?= Zpos m2 * 2 ^ (e2 - SpecFloat.emin prec emax)).
Proof.
  intros H1 H2.
  destruct (valid_exponent s1 m1 e1 H1) as (He1 & Hd1 & Hn1).
  destruct (valid_exponent s2 m2 e2 H2) as (He2 & Hd2 & Hn2).
  pose proof (digits2_bounds m1) as [Hlo1 Hhi1].
  pose proof (digits2_bounds m2) as [Hlo2 Hhi2].
  assert (Hstep : forall (ma mb : positive) (ea eb : Z),
             SpecFloat.emin prec emax <= ea -> ea < eb ->
             Zpos (digits2_pos ma) <= prec -> Zpos (digits2_pos mb) = prec ->
             Zpos ma * 2 ^ (ea - SpecFloat.emin prec emax) < Zpos mb * 2 ^ (eb - SpecFloat.emin prec emax)).
  { intros ma mb ea eb Hea Hlt Hda Hdb.
    pose proof (digits2_bounds ma) as [_ Hhia].
    pose proof (digits2_bounds mb) as [Hlob _]. rewrite Hdb in Hlob.
    pose proof (pow2_pos (ea - SpecFloat.emin prec emax) ltac:(lia)) as Hp.
    replace (eb - SpecFloat.emin prec emax) with ((eb - ea - 1) + 1 + (ea - SpecFloat.emin prec emax)) by lia.
    rewrite !Z.pow_add_r by lia. change (2 ^ 1) with 2.
    pose proof (pow2_pos (eb - ea - 1) ltac:(lia)) as Hq.
    assert (Hma : Zpos ma < 2 ^ prec).
    { apply Z.lt_le_trans with (2 ^ Zpos (digits2_pos ma)); [exact Hhia|].
      apply Z.pow_le_mono_r; lia. }
    assert (Hpp : 2 ^ prec = 2 * 2 ^ (prec - 1)).
    { replace prec with (Z.succ (prec - 1)) at 1 by lia.
      now rewrite Z.pow_succ_r by lia. }
    set (P := 2 ^ (ea - SpecFloat.emin prec emax)) in *. set (Q := 2 ^ (eb - ea - 1)) in *.
    set (R := 2 ^ (prec - 1)) in *. rewrite Hpp in Hma.
    assert (H1' : Zpos ma * P < 2 * R * P) by (apply Z.mul_lt_mono_pos_r; assumption).
    assert (H2' : R * P <= Zpos mb * P) by (apply Z.mul_le_mono_nonneg_r; lia).
    assert (H3' : Zpos mb * P <= Zpos mb * P * Q).
    { rewrite <- (Z.mul_1_r (Zpos mb * P)) at 1. apply Z.mul_le_mono_nonneg_l; lia. }
    replace (Zpos mb * (Q * 2 * P)) with (2 * (Zpos mb * P * Q)) by ring.
    lia. }
  destruct (Z.compare_spec e1 e2) as [Heq|Hlt|Hgt].
  - subst e2. change (Pos.compare_cont Eq m1 m2) with (Zpos m1 ?= Zpos m2).
    pose proof (pow2_pos (e1 - SpecFloat.emin prec emax) ltac:(lia)) as Hp.
    destruct (Z.compare_spec (Zpos m1) (Zpos m2)) as [Hm|Hm|Hm]; symmetry.
    + apply Z.compare_eq_iff. now rewrite Hm.
    + apply Z.compare_lt_iff. now apply Z.mul_lt_mono_pos_r.
    + apply Z.compare_gt_iff. now apply Z.mul_lt_mono_pos_r.
  - symmetry. apply Z.compare_lt_iff. apply Hstep; lia.
  - symmetry. apply Z.compare_gt_iff. apply Hstep; lia.
Qed.

Lemma compare_rank (x y : spec_float) :
  SpecFloat.valid_binary prec emax x = true -> SpecFloat.valid_binary prec emax y = true ->
  isNumber x = true -> isNumber y = true ->
  SFcompare x y = Some (rank prec emax x ?= rank prec emax y).
Proof.
  intros Hx Hy Nx Ny.
  assert (Hinf : 0 < 2 ^ (emax - SpecFloat.emin prec emax)) by (apply pow2_pos; unfold SpecFloat.emin; lia).
  assert (Hfin : forall s m e, SpecFloat.valid_binary prec emax (S754_finite s m e) = true ->
                               0 < Zpos m * 2 ^ (e - SpecFloat.emin prec emax) < 2 ^ (emax - SpecFloat.emin prec emax))
    by apply finite_rank_bound.
  destruct x as [sx|sx| |sx mx ex], y as [sy|sy| |sy my ey]; try discriminate;
    cbn [SFcompare rank];
    try (pose proof (Hfin _ _ _ Hx)); try (pose proof (Hfin _ _ _ Hy));
    try (destruct sx); try (destruct sy); cbn [cond_Zopp]; f_equal; symmetry;
    try (first [apply (proj2 (Z.compare_eq_iff _ _))
               |apply (proj2 (Z.compare_lt_iff _ _))
               |apply (proj2 (Z.compare_gt_iff _ _))]; lia).
  - pose proof (compare_magnitudes true true mx my ex ey Hx Hy) as Hc.
    rewrite Z.compare_opp, (Z.compare_antisym (Zpos mx * 2 ^ (ex - SpecFloat.emin prec emax))), <- Hc.
    now destruct (ex ?= ey).
  - symmetry. apply (compare_magnitudes false false mx my ex ey Hx Hy).
Qed.

Lemma sub_rank (x y : spec_float) :
  SpecFloat.valid_binary prec emax x = true -> SpecFloat.valid_binary prec emax y = true ->
  SFltb (S754_zero false) (SFsub prec emax y x)
  = isNumber x && isNumber y && (rank prec emax x <? rank prec emax y).
Proof.
  intros Hx Hy.
  assert (Hinf : 0 < 2 ^ (emax - SpecFloat.emin prec emax)) by (apply pow2_pos; unfold SpecFloat.emin; lia).
  assert (Hfin : forall s m e, SpecFloat.valid_binary prec emax (S754_finite s m e) = true ->
                               0 < Zpos m * 2 ^ (e - SpecFloat.emin prec emax) < 2 ^ (emax - SpecFloat.emin prec emax))
    by apply finite_rank_bound.
  destruct x as [sx|sx| |sx mx ex], y as [sy|sy| |sy my ey];
    cbn [SFsub isNumber andb rank]; try reflexivity;
    try (pose proof (Hfin _ _ _ Hx)); try (pose proof (Hfin _ _ _ Hy)).
  all: try (destruct sx; try destruct sy; cbn [negb cond_Zopp SFltb SFcompare];
            symmetry;
            first [apply (proj2 (Z.ltb_lt _ _)); lia | apply (proj2 (Z.ltb_ge _ _)); lia]).
  all: try (destruct sy; cbn [negb cond_Zopp SFltb SFcompare];
            symmetry;
            first [apply (proj2 (Z.ltb_lt _ _)); lia | apply (proj2 (Z.ltb_ge _ _)); lia]).
  destruct (valid_exponent sx mx ex Hx) as (Hex & _).
  destruct (valid_exponent sy my ey Hy) as (Hey & _).
  set (ez := Z.min ey ex).
  pose proof (shl_align_value my ey ez ltac:(lia)) as Hmy.
  pose proof (shl_align_value mx ex ez ltac:(lia)) as Hmx.
  set (D := cond_Zopp sy (Zpos (fst (shl_align my ey ez)))
            - cond_Zopp sx (Zpos (fst (shl_align mx ex ez)))).
  assert (HD : cond_Zopp sy (Zpos my * 2 ^ (ey - SpecFloat.emin prec emax))
               - cond_Zopp sx (Zpos mx * 2 ^ (ex - SpecFloat.emin prec emax))
               = D * 2 ^ (ez - SpecFloat.emin prec emax)).
  { unfold D. rewrite Hmy, Hmx.
    replace (ey - SpecFloat.emin prec emax) with ((ey - ez) + (ez - SpecFloat.emin prec emax)) by lia.
    replace (ex - SpecFloat.emin prec emax) with ((ex - ez) + (ez - SpecFloat.emin prec emax)) by lia.
    rewrite !Z.pow_add_r by lia.
    destruct sx, sy; cbn [cond_Zopp]; ring. }
  pose proof (pow2_pos (ez - SpecFloat.emin prec emax) ltac:(lia)) as Hp.
  unfold binary_normalize.
  destruct D as [|d|d] eqn:ED.
  - symmetry. apply Z.ltb_ge. lia.
  - destruct (binary_round_sign false d ez ltac:(lia)) as [(m' & e' & ->)| ->];
      cbn [SFltb SFcompare]; symmetry; apply Z.ltb_lt; nia.
  - destruct (binary_round_sign true d ez ltac:(lia)) as [(m' & e' & ->)| ->];
      cbn [SFltb SFcompare]; symmetry; apply Z.ltb_ge; nia.
Qed.
End Rounding.

(** ** The comparisons of doubles *)

Section Doubles.
Local Open Scope Z_scope.

Lemma format64 : 0 < prec /\ prec < emax.
Proof. unfold prec, emax. lia. Qed.

Lemma is_nan_number (x : float) : PrimFloat.is_nan x = negb (isNumber (Prim2SF x)).
Proof.
  unfold PrimFloat.is_nan. rewrite eqb_spec. unfold SFeqb.
  destruct (isNumber (Prim2SF x)) eqn:E.
  - rewrite (compare_rank prec emax (proj1 format64) (proj2 format64) _ _
               (Prim2SF_valid x) (Prim2SF_valid x) E E).
    now rewrite Z.compare_refl.
  - destruct (Prim2SF x); try discriminate. reflexivity.
Qed.

Lemma ltb_rank (x y : float) :
  PrimFloat.ltb x y
  = negb (PrimFloat.is_nan x) && negb (PrimFloat.is_nan y) && (rank64 x <? rank64 y).
Proof.
  rewrite !is_nan_number, !negb_involutive, ltb_spec. unfold SFltb, rank64.
  destruct (isNumber (Prim2SF x)) eqn:Ex, (isNumber (Prim2SF y)) eqn:Ey; cbn [andb].
  - rewrite (compare_rank prec emax (proj1 format64) (proj2 format64) _ _
               (Prim2SF_valid x) (Prim2SF_valid y) Ex Ey).
    unfold Z.ltb. now destruct (rank prec emax (Prim2SF x) ?= rank prec emax (Prim2SF y)).
  - destruct (Prim2SF y); try discriminate. now destruct (Prim2SF x).
  - destruct (Prim2SF x); try discriminate. reflexivity.
  - destruct (Prim2SF x); try discriminate. reflexivity.
Qed.

Lemma leb_rank (x y : float) :
  PrimFloat.leb x y
  = negb (PrimFloat.is_nan x) && negb (PrimFloat.is_nan y) && (rank64 x <=? rank64 y).
Proof.
  rewrite !is_nan_number, !negb_involutive, leb_spec. unfold SFleb, rank64.
  destruct (isNumber (Prim2SF x)) eqn:Ex, (isNumber (Prim2SF y)) eqn:Ey; cbn [andb].
  - rewrite (compare_rank prec emax (proj1 format64) (proj2 format64) _ _
               (Prim2SF_valid x) (Prim2SF_valid y) Ex Ey).
    unfold Z.leb. now destruct (rank prec emax (Prim2SF x) ?= rank prec emax (Prim2SF y)).
  - destruct (Prim2SF y); try discriminate. now destruct (Prim2SF x).
  - destruct (Prim2SF x); try discriminate. reflexivity.
  - destruct (Prim2SF x); try discriminate. reflexivity.
Qed.

Lemma eqb_rank (x y : float) :
  PrimFloat.eqb x y
  = negb (PrimFloat.is_nan x) && negb (PrimFloat.is_nan y) && (rank64 x =? rank64 y).
Proof.
  rewrite !is_nan_number, !negb_involutive, eqb_spec. unfold SFeqb, rank64.
  destruct (isNumber (Prim2SF x)) eqn:Ex, (isNumber (Prim2SF y)) eqn:Ey; cbn [andb].
  - rewrite (compare_rank prec emax (proj1 format64) (proj2 format64) _ _
               (Prim2SF_valid x) (Prim2SF_valid y) Ex Ey).
    rewrite Z.eqb_compare. now destruct (rank prec emax (Prim2SF x) ?= rank prec emax (Prim2SF y)).
  - destruct (Prim2SF y); try discriminate. now destruct (Prim2SF x).
  - destruct (Prim2SF x); try discriminate. reflexivity.
  - destruct (Prim2SF x); try discriminate. reflexivity.
Qed.

(** [y - x > 0] is [y > x], for all doubles: a difference that is not 0 is
    not rounded to 0, and a NaN or two equal infinities give a NaN. *)
Lemma sub_positive (x y : float) :
  PrimFloat.ltb 0%float (y - x)%float = PrimFloat.ltb x y.
Proof.
  rewrite (ltb_rank x y), (ltb_spec 0%float (y - x)%float), sub_spec.
  change (Prim2SF 0%float) with (S754_zero false).
  unfold SF64sub.
  rewrite (sub_rank prec emax (proj1 format64) (proj2 format64) _ _
             (Prim2SF_valid x) (Prim2SF_valid y)).
  now rewrite !is_nan_number, !negb_involutive.
Qed.

(** *** The comparator in doubles *)

(** In doubles the comparator exchanges two entries exactly when the total of
    the first is less than the total of the second. *)
Lemma comesAfter_ltb (a b : PerPersonBreakdown float) :
  comesAfter a b = PrimFloat.ltb (total a) (total b).
Proof. apply sub_positive. Qed.

Lemma comesAfter_rank (a b : PerPersonBreakdown float) :
  PrimFloat.is_nan (total a) = false -> PrimFloat.is_nan (total b) = false ->
  comesAfter a b = (rank64 (total a) <? rank64 (total b)).
Proof. intros Ha Hb. rewrite comesAfter_ltb, ltb_rank, Ha, Hb. reflexivity. Qed.

Lemma tied_eqb (a b : PerPersonBreakdown float) :
  PrimFloat.is_nan (total a) = false -> PrimFloat.is_nan (total b) = false ->
  tied a b = PrimFloat.eqb (total a) (total b).
Proof.
  intros Ha Hb. unfold tied.
  rewrite !comesAfter_rank, eqb_rank, Ha, Hb by assumption. cbn [negb andb].
  destruct (Z.ltb_spec (rank64 (total a)) (rank64 (total b))),
           (Z.ltb_spec (rank64 (total b)) (rank64 (total a))),
           (Z.eqb_spec (rank64 (total a)) (rank64 (total b)));
    try reflexivity; lia.
Qed.

(** Without a NaN among the totals the comparator is consistent. *)
Lemma numbers_consistent (l : list (PerPersonBreakdown float)) :
  totalsAreNumbers l -> consistentComparator l = true.
Proof.
  unfold totalsAreNumbers. intros Hl. rewrite Forall_forall in Hl.
  unfold consistentComparator.
  apply forallb_forall. intros a Ha. apply forallb_forall. intros b Hb.
  apply andb_true_intro. split.
  - rewrite !comesAfter_rank by auto.
    destruct (Z.ltb_spec (rank64 (total a)) (rank64 (total b))),
             (Z.ltb_spec (rank64 (total b)) (rank64 (total a)));
      try reflexivity; lia.
  - apply forallb_forall. intros c Hc. rewrite !comesAfter_rank by auto.
    destruct (Z.ltb_spec (rank64 (total a)) (rank64 (total b))),
             (Z.ltb_spec (rank64 (total b)) (rank64 (total c))),
             (Z.ltb_spec (rank64 (total a)) (rank64 (total c)));
      try reflexivity; lia.
Qed.

Lemma sorted_by_leb (l : list (PerPersonBreakdown float)) :
  totalsAreNumbers l ->
  StronglySorted (fun a b => comesAfter a b = false) l ->
  StronglySorted (fun a b => PrimFloat.leb (total b) (total a) = true) l.
Proof.
  unfold totalsAreNumbers. intros Hl Hs.
  induction Hs as [|x l Hs IH Hall]; constructor.
  - apply IH. now inversion Hl.
  - inversion Hl as [|? ? Hx Hl']; subst.
    rewrite Forall_forall in *. intros y Hy.
    specialize (Hall y Hy). rewrite comesAfter_rank in Hall by auto.
    rewrite leb_rank, Hx, (Hl' y Hy). cbn [negb andb].
    apply Z.leb_le. apply Z.ltb_ge in Hall. exact Hall.
Qed.

Lemma filter_nowhere (A : Type) (p : A -> bool) (l : list A) :
  (forall x, In x l -> p x = false) -> filter p l = [].
Proof.
  induction l as [|x l IH]; intros Hall; [reflexivity|].
  cbn [filter]. rewrite (Hall x) by now left.
  apply IH. intros y Hy. apply Hall. now right.
Qed.

(** The entries of one total keep the order of the breakdown map. *)
Lemma equal_totals_in_map_order (r : ReceiptData float) (t : float) :
  totalsAreNumbers (proratedEntries r) ->
  filter (fun e => PrimFloat.eqb (total e) t) (calculatePerPersonBreakdown r)
  = filter (fun e => PrimFloat.eqb (total e) t) (proratedEntries r).
Proof.
  intros Hl.
  pose proof (numbers_consistent _ Hl) as Hc.
  pose proof (sort_perm compareTotals (proratedEntries r)) as Hperm.
  change (sort compareTotals (proratedEntries r))
    with (calculatePerPersonBreakdown r) in Hperm.
  unfold totalsAreNumbers in Hl. rewrite Forall_forall in Hl.
  destruct (existsb (fun e => PrimFloat.eqb (total e) t) (proratedEntries r)) eqn:E.
  - apply existsb_exists in E as (a & Ha & Hat).
    assert (Hclass : forall e, In e (proratedEntries r) ->
                               PrimFloat.eqb (total e) t = tied a e).
    { intros e He. rewrite tied_eqb by auto.
      rewrite eqb_rank in Hat. rewrite !eqb_rank.
      rewrite (Hl a Ha) in *. rewrite (Hl e He).
      destruct (PrimFloat.is_nan t); [discriminate|]. cbn [negb andb] in *.
      apply Z.eqb_eq in Hat. rewrite Hat. apply Z.eqb_sym. }
    rewrite (filter_ext_in _ (tied a) (calculatePerPersonBreakdown r)).
    + rewrite (filter_ext_in _ (tied a) (proratedEntries r)) by exact Hclass.
      apply sort_stable with (l0 := proratedEntries r);
        [exact Hc|exact Ha|apply incl_refl].
    + intros e He. apply Hclass. exact (Permutation_in _ Hperm He).
  - assert (Hnone : forall e, In e (proratedEntries r) ->
                              PrimFloat.eqb (total e) t = false).
    { intros e He. destruct (PrimFloat.eqb (total e) t) eqn:Et; [|reflexivity].
      rewrite <- E. symmetry. apply existsb_exists. now exists e. }
    rewrite !filter_nowhere; auto.
    intros e He. apply Hnone. exact (Permutation_in _ Hperm He).
Qed.
End Doubles.

Set Implicit Arguments.

(** ** The items totals regroup the quotients *)

Section Regrouping.
Context {num : Type} `{JsNumber num}.
Local Open Scope js_scope.







End Regrouping.

(** ** Scaled shares *)

Section Scaling.
Context {num : Type} `{JsNumber num}.
Local Open Scope js_scope.



End Scaling.

(** ** What [itemsShare] holds *)

Section ItemsShare.
Context {num : Type} `{JsNumber num}.
Local Open Scope js_scope.


End ItemsShare.

(** ** The call on the heap and the function *)

Section HeapFacts.
Context {num : Type} `{JsNumber num}.
Local Open Scope js_scope.
Implicit Types (h : OnHeap.Heap num) (p q : OnHeap.Ref) (o : PerPersonBreakdown num).

Lemma length_store h p o : List.length (OnHeap.store h p o) = List.length h.
Proof.
  revert p. induction h as [|x h IH]; intros [|p]; simpl; auto.
Qed.

Lemma deref_store_same h p o :
  (p < List.length h)%nat -> OnHeap.deref (OnHeap.store h p o) p = Some o.
Proof.
  unfold OnHeap.deref. revert p. induction h as [|x h IH]; intros [|p] Hp; simpl in *;
    try lia; auto.
  apply IH. lia.
Qed.

Lemma deref_store_other h p q o :
  q <> p -> OnHeap.deref (OnHeap.store h p o) q = OnHeap.deref h q.
Proof.
  unfold OnHeap.deref. revert p q. induction h as [|x h IH]; intros [|p] [|q] Hne; simpl;
    try congruence; auto.
Qed.

Lemma firstn_store h p o (n : nat) :
  (n <= p)%nat -> firstn n (OnHeap.store h p o) = firstn n h.
Proof.
  revert p n. induction h as [|x h IH]; intros [|p] [|n] Hn; simpl; try lia; auto.
  f_equal. apply IH. lia.
Qed.

Lemma deref_valid h p o : OnHeap.deref h p = Some o -> (p < List.length h)%nat.
Proof. unfold OnHeap.deref. intros Hp. apply nth_error_Some. congruence. Qed.

Lemma deref_old h h' p :
  firstn (List.length h) h' = h -> (p < List.length h)%nat ->
  OnHeap.deref h' p = OnHeap.deref h p.
Proof.
  unfold OnHeap.deref. intros Heq Hp.
  pose proof (nth_error_firstn (List.length h) h' p) as Hnth.
  rewrite Heq in Hnth. rewrite Hnth.
  destruct (Nat.ltb_spec p (List.length h)); [reflexivity|lia].
Qed.

Lemma prefix_length h h' : firstn (List.length h) h' = h -> (List.length h <= List.length h')%nat.
Proof.
  intros Heq. apply (f_equal (@List.length _)) in Heq.
  rewrite length_firstn in Heq. lia.
Qed.

(** References that are pairwise distinct stand for one key each. *)
Lemma refs_injective (m : JsMap OnHeap.Ref) (k k' : string) p :
  NoDup (map_values m) -> In (k, p) m -> In (k', p) m -> k = k'.
Proof.
  unfold map_values. induction m as [|[k0 p0] m IH]; simpl; [tauto|].
  intros Hnd. apply NoDup_cons_iff in Hnd as [Hp0 Hnd].
  intros [Heq|Hin] [Heq'|Hin']; auto.
  - congruence.
  - exfalso. apply Hp0. injection Heq as _ ->.
    change p with (snd (k', p)). now apply in_map.
  - exfalso. apply Hp0. injection Heq' as _ ->.
    change p with (snd (k, p)). now apply in_map.
Qed.

Lemma map_values_set_new (V : Type) (m : JsMap V) (k : string) (v : V) :
  map_has m k = false -> map_values (map_set m k v) = map_values m ++ [v].
Proof.
  unfold map_has, map_values. induction m as [|[k0 v0] m IH]; simpl; auto.
  destruct (String.eqb k k0); [discriminate|]. intros Hm. simpl. f_equal. auto.
Qed.

Lemma map_get_values (V : Type) (m : JsMap V) (k : string) (v : V) :
  map_get m k = Some v -> In v (map_values m).
Proof.
  intros Hget. apply map_get_In in Hget. unfold map_values.
  change v with (snd (k, v)). now apply in_map.
Qed.

Lemma represents_initial h : represents h (OnHeap.mkFrame h [] [] zero) initialState.
Proof.
  unfold represents. simpl. repeat split; auto.
  - discriminate.
  - constructor.
  - apply firstn_all.
Qed.

Lemma represents_processAssignment h0 (item : LineItem num) (fr : OnHeap.Frame num)
    (st : State num) (a : Assignment num) :
  represents h0 fr st ->
  represents h0 (OnHeap.processAssignment item fr a) (processAssignment item st a).
Proof.
  intros (Htotals & Hamount & Hkeys & Hget & Hbounds & Hnd & Hold).
  pose proof (@prefix_length _ _ Hold) as Hlen.
  rewrite Forall_forall in Hbounds.
  unfold OnHeap.processAssignment, processAssignment.
  set (k := participant_id a). set (share := participantShare item a).
  rewrite Htotals, Hamount.
  assert (Hhas : map_has (OnHeap.breakdown fr) k = map_has (breakdown st) k)
    by (now rewrite !map_has_keys, Hkeys).
  rewrite Hhas. destruct (map_has (breakdown st) k) eqn:Ehas.
  - (* the participant has an entry: the object is updated in place *)
    unfold map_has in Hhas, Ehas.
    destruct (map_get (OnHeap.breakdown fr) k) as [p|] eqn:Ep; [|discriminate].
    destruct (map_get (breakdown st) k) as [e|] eqn:Ee; [|discriminate].
    pose proof (Hget k p Ep) as Hp. rewrite Ee in Hp. rewrite Hp.
    pose proof (@deref_valid _ _ _ Hp) as Hvalid.
    unfold represents. cbn [OnHeap.participantItemTotals OnHeap.totalAssignedAmount
                              OnHeap.breakdown OnHeap.heap participantItemTotals
                              totalAssignedAmount breakdown].
    split; [reflexivity|]. split; [reflexivity|]. split.
    { rewrite map_keys_set. unfold map_has. now rewrite Ee. }
    split.
    { intros k' p' Hk'. destruct (String.eqb_spec k' k) as [->|Hne].
      - rewrite Ep in Hk'. injection Hk' as <-.
        now rewrite deref_store_same, map_get_set_same.
      - rewrite map_get_set_other by assumption.
        rewrite deref_store_other; [now apply Hget|].
        intros ->. apply Hne.
        apply (@refs_injective (OnHeap.breakdown fr) k' k p Hnd); now apply map_get_In. }
    split.
    { apply Forall_forall. intros q Hq. rewrite length_store. now apply Hbounds. }
    split; [exact Hnd|].
    rewrite firstn_store; [exact Hold|].
    apply (Hbounds p). now apply map_get_values with (k := k).
  - (* a new participant: a new object *)
    unfold OnHeap.allocate. rewrite !map_get_set_same.
    assert (Hnew : OnHeap.deref (OnHeap.heap fr ++ [newEntry a]) (List.length (OnHeap.heap fr))
                   = Some (newEntry a)).
    { unfold OnHeap.deref. rewrite nth_error_app2 by lia. now rewrite Nat.sub_diag. }
    rewrite Hnew. rewrite map_set_set.
    unfold represents. cbn [OnHeap.participantItemTotals OnHeap.totalAssignedAmount
                              OnHeap.breakdown OnHeap.heap participantItemTotals
                              totalAssignedAmount breakdown].
    split; [reflexivity|]. split; [reflexivity|]. split.
    { rewrite !map_keys_set, Hhas, Ehas, Hkeys. reflexivity. }
    split.
    { intros k' p' Hk'. destruct (String.eqb_spec k' k) as [->|Hne].
      - rewrite map_get_set_same in Hk'. injection Hk' as <-.
        rewrite deref_store_same by (rewrite length_app; simpl; lia).
        now rewrite map_get_set_same.
      - rewrite map_get_set_other in Hk' by assumption.
        rewrite map_get_set_other by assumption.
        assert (Hp' : (p' < List.length (OnHeap.heap fr))%nat)
          by (apply (Hbounds p'); now apply map_get_values with (k := k')).
        rewrite deref_store_other by lia.
        unfold OnHeap.deref. rewrite nth_error_app1 by exact Hp'.
        now apply Hget. }
    split.
    { rewrite map_values_set_new by exact Hhas.
      apply Forall_forall. intros q Hq. rewrite length_store, length_app. simpl.
      apply in_app_or in Hq as [Hq|[<-|[]]]; [|lia].
      specialize (Hbounds q Hq). lia. }
    split.
    { rewrite map_values_set_new by exact Hhas.
      apply NoDup_app; [exact Hnd|repeat constructor; simpl; tauto|].
      intros q Hq [<-|[]]. specialize (Hbounds _ Hq). lia. }
    rewrite firstn_store by exact Hlen.
    rewrite firstn_app.
    replace (List.length h0 - List.length (OnHeap.heap fr))%nat with 0%nat by lia.
    cbn [firstn]. now rewrite app_nil_r.
Qed.

Lemma represents_processItem h0 (fr : OnHeap.Frame num) (st : State num)
    (item : LineItem num) :
  represents h0 fr st ->
  represents h0 (OnHeap.processItem fr item) (processItem st item).
Proof.
  unfold OnHeap.processItem, processItem.
  destruct (totalShares item >? zero); [|auto].
  revert fr st. induction (assignments item) as [|a l IH]; intros fr st Hr; [exact Hr|].
  cbn [fold_left]. apply IH. now apply represents_processAssignment.
Qed.

Lemma represents_processItems h (items : list (LineItem num)) :
  represents h (OnHeap.processItems h items) (processItems items).
Proof.
  unfold OnHeap.processItems, processItems.
  generalize (represents_initial h).
  generalize (OnHeap.mkFrame h [] [] zero) (@initialState num _).
  induction items as [|item items IH]; intros fr st Hr; [exact Hr|].
  cbn [fold_left]. apply IH. now apply represents_processItem.
Qed.

(** The second loop writes each entry once, through its own reference. *)
Lemma prorate_loop (taxes tips : num) (fr : OnHeap.Frame num) (st : State num)
    (l : list (string * OnHeap.Ref)) h :
  OnHeap.participantItemTotals fr = participantItemTotals st ->
  OnHeap.totalAssignedAmount fr = totalAssignedAmount st ->
  NoDup (List.map snd l) ->
  List.length (fold_left (OnHeap.prorate taxes tips fr) l h) = List.length h /\
  (forall q, ~ In q (List.map snd l) ->
             OnHeap.deref (fold_left (OnHeap.prorate taxes tips fr) l h) q = OnHeap.deref h q) /\
  (forall k p, In (k, p) l ->
               OnHeap.deref (fold_left (OnHeap.prorate taxes tips fr) l h) p
               = option_map (fun e => snd (prorate taxes tips st (k, e))) (OnHeap.deref h p)).
Proof.
  intros Htotals Hamount. revert h.
  induction l as [|[k p] l IH]; intros h Hnd.
  - simpl. repeat split; auto. intros k p [].
  - cbn [List.map snd] in Hnd. apply NoDup_cons_iff in Hnd as [Hp Hnd].
    cbn [fold_left].
    set (h1 := OnHeap.prorate taxes tips fr h (k, p)).
    assert (Hstep : h1 = match OnHeap.deref h p with
                         | Some e => OnHeap.store h p (snd (prorate taxes tips st (k, e)))
                         | None => h
                         end).
    { unfold h1, OnHeap.prorate, prorate. rewrite Htotals, Hamount.
      destruct (OnHeap.deref h p); reflexivity. }
    assert (Hlen1 : List.length h1 = List.length h)
      by (rewrite Hstep; destruct (OnHeap.deref h p); [apply length_store|reflexivity]).
    assert (Hother : forall q, q <> p -> OnHeap.deref h1 q = OnHeap.deref h q).
    { intros q Hq. rewrite Hstep.
      destruct (OnHeap.deref h p); [now apply deref_store_other|reflexivity]. }
    destruct (IH h1 Hnd) as (Hlen & Hrest & Hin).
    split; [now rewrite Hlen|]. split.
    + intros q Hq. cbn [List.map snd In] in Hq.
      rewrite Hrest by tauto. apply Hother. intros ->. tauto.
    + intros k' p' [[= -> ->]|Hin'].
      * rewrite Hrest by exact Hp. rewrite Hstep.
        destruct (OnHeap.deref h p') as [e|] eqn:E; [|now rewrite E].
        rewrite deref_store_same by (now apply deref_valid with (o := e)).
        reflexivity.
      * rewrite (Hin k' p' Hin'). rewrite Hother; [reflexivity|].
        intros ->. apply Hp. change p with (snd (k', p)). now apply in_map.
Qed.

Lemma sortInsert_refs h (x : OnHeap.Ref) (e : PerPersonBreakdown num)
    (l : list OnHeap.Ref) (es : list (PerPersonBreakdown num)) :
  OnHeap.deref h x = Some e ->
  List.map (OnHeap.deref h) l = List.map Some es ->
  List.map (OnHeap.deref h) (OnHeap.sortInsert (OnHeap.compareTotals h) x l)
  = List.map Some (sortInsert compareTotals e es).
Proof.
  intros Hx. revert es. induction l as [|y l IH]; intros [|ey es] Hl;
    try discriminate; cbn [OnHeap.sortInsert sortInsert List.map] in *.
  - now rewrite Hx.
  - injection Hl as Hy Hl.
    replace (OnHeap.compareTotals h x y) with (compareTotals e ey)
      by (unfold OnHeap.compareTotals; now rewrite Hx, Hy).
    destruct (compareTotals e ey >? zero); cbn [List.map].
    + rewrite Hy. f_equal. now apply IH.
    + now rewrite Hx, Hy, Hl.
Qed.

Lemma sort_refs h (l : list OnHeap.Ref) (es : list (PerPersonBreakdown num)) :
  List.map (OnHeap.deref h) l = List.map Some es ->
  List.map (OnHeap.deref h) (OnHeap.sort (OnHeap.compareTotals h) l)
  = List.map Some (sort compareTotals es).
Proof.
  revert es. induction l as [|x l IH]; intros [|e es] Hl; try discriminate; [reflexivity|].
  cbn [List.map] in Hl. injection Hl as Hx Hl.
  cbn [OnHeap.sort sort fold_right]. now apply sortInsert_refs; [|apply IH].
Qed.

Lemma sort_refs_perm (cmp : OnHeap.Ref -> OnHeap.Ref -> num) (l : list OnHeap.Ref) :
  Permutation (OnHeap.sort cmp l) l.
Proof.
  assert (Hins : forall x l', Permutation (OnHeap.sortInsert cmp x l') (x :: l')).
  { intros x l'. induction l' as [|y l' IH]; simpl; auto.
    destruct (cmp x y >? zero); auto. rewrite IH. apply perm_swap. }
  induction l as [|x l IH]; simpl; auto.
  rewrite Hins. now constructor.
Qed.

(** Two maps with the same keys, entry by entry. *)
Lemma values_related (A B C : Type) (m1 : JsMap A) (m2 : JsMap B)
    (f : A -> C) (g : string * B -> C) :
  map_keys m1 = map_keys m2 ->
  (forall k a b, In (k, a) m1 -> In (k, b) m2 -> NoDup (map_keys m2) -> f a = g (k, b)) ->
  NoDup (map_keys m2) ->
  List.map f (map_values m1) = List.map g m2.
Proof.
  unfold map_keys, map_values. revert m2.
  induction m1 as [|[k a] m1 IH]; intros [|[k' b] m2] Hkeys Hrel Hnd;
    try discriminate; [reflexivity|].
  cbn [List.map fst snd] in *. injection Hkeys as -> Hkeys.
  f_equal.
  - apply Hrel; auto; now left.
  - inversion Hnd; subst. apply IH; auto.
    intros k0 a0 b0 Ha0 Hb0 _. apply Hrel; auto; now right.
Qed.

(** What a call on the heap returns and leaves. *)
Lemma call_on_heap h (r : ReceiptData num) :
  OnHeap.returned (OnHeap.calculatePerPersonBreakdown h r)
  = List.map Some (calculatePerPersonBreakdown r) /\
  firstn (List.length h) (fst (OnHeap.calculatePerPersonBreakdown h r)) = h /\
  Forall (fun p => (List.length h <= p
                    < List.length (fst (OnHeap.calculatePerPersonBreakdown h r)))%nat)
         (snd (OnHeap.calculatePerPersonBreakdown h r)) /\
  NoDup (snd (OnHeap.calculatePerPersonBreakdown h r)).
Proof.
  unfold OnHeap.returned, OnHeap.calculatePerPersonBreakdown. cbv zeta. cbn [fst snd].
  destruct (represents_processItems h (line_items r))
    as (Htotals & Hamount & Hkeys & Hget & Hbounds & Hnd & Hold).
  set (fr := OnHeap.processItems h (line_items r)) in *.
  set (st := processItems (line_items r)) in *.
  assert (Hndk : NoDup (map_keys (breakdown st)))
    by (unfold st; rewrite processItems_visits; apply breakdown_NoDup).
  destruct (prorate_loop (taxTotal r) (tipTotal r) fr st (OnHeap.breakdown fr)
              (OnHeap.heap fr) Htotals Hamount Hnd)
    as (Hlen & Hrest & Hin).
  set (h' := fold_left (OnHeap.prorate (taxTotal r) (tipTotal r) fr)
               (OnHeap.breakdown fr) (OnHeap.heap fr)) in *.
  assert (Hvalues : List.map (OnHeap.deref h') (map_values (OnHeap.breakdown fr))
                    = List.map Some (proratedEntries r)).
  { unfold proratedEntries, map_values at 2. fold st. rewrite !map_map.
    apply values_related; [exact Hkeys| |exact Hndk].
    intros k p e Hp He _. rewrite (Hin k p Hp).
    rewrite (Hget k p).
    - rewrite (In_map_get _ _ _ Hndk He). reflexivity.
    - apply In_map_get; [now rewrite Hkeys|exact Hp]. }
  pose proof (sort_refs_perm (OnHeap.compareTotals h') (map_values (OnHeap.breakdown fr)))
    as Hperm.
  split; [now apply sort_refs|]. split.
  - (* the heap the call started from *)
    pose proof (@prefix_length _ _ Hold) as Hle.
    apply nth_error_ext. intros q.
    rewrite nth_error_firstn.
    destruct (Nat.ltb_spec q (List.length h)) as [Hq|Hq].
    + fold (OnHeap.deref h' q). rewrite Hrest.
      * now apply deref_old.
      * intros Hqin. rewrite Forall_forall in Hbounds.
        specialize (Hbounds q Hqin). lia.
    + symmetry. apply nth_error_None. lia.
  - split.
    + apply (Permutation_Forall (Permutation_sym Hperm)).
      eapply Forall_impl; [|exact Hbounds]. intros q Hq. cbv beta in *.
      fold h'. rewrite Hlen. exact Hq.
    + apply (Permutation_NoDup (Permutation_sym Hperm)). exact Hnd.
Qed.
End HeapFacts.

(** * Properties of calculatePerPersonBreakdown *)

Local Open Scope js_scope.

(** ** C1: what is credited for a line item *)

(** C1, counterexample.  Ten dollars with one share for Alice and two for Bob:
    the line item has positive total shares, and the items totals returned are
    1000/3 and 2000/3 cents, in doubles as in exact arithmetic; neither is a
    whole number of cents. *)
Lemma itemsTotal_not_whole_cents :
  Forall (fun item => assigned item = true) (line_items (receiptThirds centsF)) /\
  List.map (fun e => (participantName e, itemsTotal e, whole64 (itemsTotal e)))
    (calculatePerPersonBreakdown (receiptThirds centsF))
  = [("Bob", 0x1.4d55555555555p+9%float, false);
     ("Alice", 0x1.4d55555555555p+8%float, false)] /\
  List.map (fun e => (participantName e, this (itemsTotal e), wholeQc (itemsTotal e)))
    (calculatePerPersonBreakdown (receiptThirds centsQ))
  = [("Bob", 2000 # 3, false); ("Alice", 1000 # 3, false)].
Proof.
  split; [|split].
  - repeat constructor.
  - vm_compute. reflexivity.
  - vm_compute. reflexivity.
Qed.

(** C1, as amended.  For every receipt, the items total of a returned entry is
    the sum, from the left and starting at 0, of the quotients
    [itemTotal * shares / totalShares] of that participant's assignments on the
    line items with positive total shares: the quotient of the number type,
    with no rounding to cents. *)
Theorem itemsTotal_sums_unrounded_quotients :
  forall (num : Type) (N : JsNumber num) (r : ReceiptData num)
         (e : PerPersonBreakdown num),
    In e (calculatePerPersonBreakdown r) ->
    itemsTotal e =
    fold_left add
      (List.map (fun v => itemTotal (fst v) * shares (snd v) / totalShares (fst v))
         (filter (fun v => String.eqb (participantId e) (participant_id (snd v)))
            (visits (line_items r))))
      zero.
Proof. intros num N r e Hin. exact (output_itemsTotal r e Hin). Qed.

(** Alice's third of ten dollars, in doubles. *)
Lemma itemsTotal_sums_unrounded_quotients_witness :
  In aliceThird (calculatePerPersonBreakdown (receiptThirds centsF)) /\
  itemsTotal aliceThird = (0 + 1000 * 1 * 1 / (0 + 1 + 2))%float.
Proof.
  split.
  - right. left. vm_compute. reflexivity.
  - apply (itemsTotal_sums_unrounded_quotients binary64 (receiptThirds centsF) aliceThird).
    right. left. vm_compute. reflexivity.
Defined.

(** ** C2: tax and tip follow the items share *)



(** ** C3: line items without shares *)

(** C3.  A line item whose assignments sum to zero total shares changes
    nothing: the state after the first loop, which holds every items total and
    the denominator [totalAssignedAmount], and the returned list are those of
    the receipt without that line item.  A receipt all of whose line items are
    such (or that has none) yields the empty list. *)
Theorem zero_share_items_contribute_nothing :
  forall (num : Type) (N : JsNumber num) (r : ReceiptData num),
    (forall pre item post,
        line_items r = pre ++ item :: post ->
        totalShares item = zero ->
        processItems (line_items r) = processItems (pre ++ post) /\
        calculatePerPersonBreakdown r =
        calculatePerPersonBreakdown
          (mkReceiptData (pre ++ post) (tax_lines r) (tip_cents r))) /\
    (Forall (fun item => totalShares item = zero) (line_items r) ->
     calculatePerPersonBreakdown r = []).
Proof.
  intros num N r. split.
  - intros pre item post Hitems Hzero.
    assert (Hst : processItems (line_items r) = processItems (pre ++ post)).
    { rewrite Hitems. apply processItems_drop. now apply zero_shares_unassigned. }
    split; [exact Hst|].
    unfold calculatePerPersonBreakdown, proratedEntries. simpl.
    now rewrite Hst.
  - intros Hall.
    unfold calculatePerPersonBreakdown, proratedEntries.
    rewrite processItems_all_unassigned; [reflexivity|].
    eapply Forall_impl; [|exact Hall].
    intros item. apply zero_shares_unassigned.
Qed.

(** The tests 'handles mixed assigned and unassigned items correctly' and
    'handles zero shares correctly', in doubles. *)
Lemma zero_share_items_contribute_nothing_witness :
  calculatePerPersonBreakdown (receiptMixed centsF) =
  calculatePerPersonBreakdown
    (mkReceiptData [oneItem centsF 1000 [alice centsF 1]]
       [mkTaxLine (centsF 600)] None) /\
  calculatePerPersonBreakdown (receiptZeroShares centsF) = [].
Proof.
  split.
  - apply (proj1 (zero_share_items_contribute_nothing binary64 (receiptMixed centsF))
             [oneItem centsF 1000 [alice centsF 1]] (oneItem centsF 5000 []) []);
      reflexivity.
  - apply (proj2 (zero_share_items_contribute_nothing binary64 (receiptZeroShares centsF))).
    repeat constructor.
Defined.

(** ** C4: assignments with zero shares *)

(** C4, counterexample.  Ten dollars with one share for Alice and a zero-share
    assignment for Bob: every assignment of Bob on the receipt has zero shares,
    and Bob is listed in the output, in doubles as in exact arithmetic. *)
Lemma zero_share_participant_listed :
  Forall (fun item =>
            Forall (fun a => participant_id a = "p2" -> shares a = zero) (assignments item))
         (line_items (receiptIdleShare centsF)) /\
  calculatePerPersonBreakdown (receiptIdleShare centsF)
  = [mkPerPersonBreakdown "p1" "Alice" 1000%float 0%float 0%float 1000%float;
     mkPerPersonBreakdown "p2" "Bob" 0%float 0%float 0%float 0%float] /\
  List.map (fun e => (participantName e, this (itemsTotal e)))
    (calculatePerPersonBreakdown (receiptIdleShare centsQ))
  = [("Alice", 1000 # 1); ("Bob", 0 # 1)].
Proof.
  split; [|split].
  - repeat constructor; simpl; intros; try discriminate; reflexivity.
  - vm_compute. reflexivity.
  - vm_compute. reflexivity.
Qed.

Lemma totalShares_dropZeroShares (item : LineItem Qc) :
  totalShares (dropZeroShares item) = totalShares item.
Proof.
  rewrite !totalShares_sumList. simpl.
  induction (assignments item) as [|a l IH]; [reflexivity|].
  simpl. destruct (Qc_eq_bool (shares a) 0%Qc) eqn:E; simpl.
  - apply Qc_eq_bool_correct in E. rewrite IH, E. ring.
  - now rewrite IH.
Qed.

(** C4, as amended.  A participant is listed in the output exactly when one of
    their assignments, whatever its shares, lies on a line item whose total
    shares are positive.  A zero-share assignment adds nothing to the total
    shares of its line item (exact arithmetic), but it is not skipped. *)
Theorem listed_iff_assigned_on_shared_item :
  (forall (num : Type) (N : JsNumber num) (r : ReceiptData num) (p : string),
      (exists e, In e (calculatePerPersonBreakdown r) /\ participantId e = p) <->
      (exists item a,
          In item (line_items r) /\ (totalShares item >? zero) = true /\
          In a (assignments item) /\ participant_id a = p)) /\
  (forall item : LineItem Qc, totalShares (dropZeroShares item) = totalShares item).
Proof.
  split; [|exact totalShares_dropZeroShares].
  intros num N r p. rewrite output_participants, in_map_iff. split.
  - intros [[item a] [Hp Hv]]. apply visits_In in Hv as (Hitem & Hpos & Ha).
    exists item, a. auto.
  - intros (item & a & Hitem & Hpos & Ha & Hp).
    exists (item, a). split; [exact Hp|].
    apply visits_In. auto.
Qed.

(** ** C5: the items totals add up *)




(** ** C6: scale invariance *)




(** ** C7: negative shares *)

(** C7, counterexample.  Ten dollars with two shares for Alice and minus one
    for Bob: the receipt has an assignment with negative shares, the call
    returns, and the returned list credits Bob minus ten dollars and Alice
    twenty. *)
Lemma negative_shares_not_rejected :
  hasNegativeShares (receiptNegative centsF) = true /\
  invoke (receiptNegative centsF)
  = Returned
      [mkPerPersonBreakdown "p1" "Alice" 2000%float 0%float 0%float 2000%float;
       mkPerPersonBreakdown "p2" "Bob" (-1000)%float (-0)%float (-0)%float (-1000)%float] /\
  List.map (fun e => (participantName e, this (itemsTotal e)))
    (calculatePerPersonBreakdown (receiptNegative centsQ))
  = [("Alice", 2000 # 1); ("Bob", -1000 # 1)].
Proof.
  split; [|split].
  - vm_compute. reflexivity.
  - vm_compute. reflexivity.
  - vm_compute. reflexivity.
Qed.

(** C7, as amended.  The function checks nothing: every call returns a list.
    An assignment on a line item with positive total shares, negative shares
    or not, has its participant listed, and its quotient
    [itemTotal * shares / totalShares] is one of the amounts summed into that
    participant's items total. *)
Theorem every_call_returns :
  forall (num : Type) (N : JsNumber num) (r : ReceiptData num),
    invoke r = Returned (calculatePerPersonBreakdown r) /\
    forall item a,
      In item (line_items r) -> (totalShares item >? zero) = true ->
      In a (assignments item) ->
      exists e,
        In e (calculatePerPersonBreakdown r) /\
        participantId e = participant_id a /\
        In (itemTotal item * shares a / totalShares item)
           (creditedTo (participant_id a) (visits (line_items r))) /\
        itemsTotal e = sumFrom zero (creditedTo (participant_id a) (visits (line_items r))).
Proof.
  intros num N r. split; [reflexivity|].
  intros item a Hitem Hpos Ha.
  assert (Hv : In (item, a) (visits (line_items r))) by (apply visits_In; auto).
  destruct (proj2 (output_participants r (participant_id a))) as [e [Hin Hid]].
  { apply in_map_iff. exists (item, a). auto. }
  exists e. split; [exact Hin|]. split; [exact Hid|]. split.
  - unfold creditedTo. apply in_map_iff. exists (item, a). split; [reflexivity|].
    apply filter_In. split; [exact Hv|]. apply String.eqb_refl.
  - rewrite <- Hid. now apply output_itemsTotal.
Qed.

(** The receipt with the negative share: Bob's assignment is credited and
    Bob is listed. *)
Lemma every_call_returns_witness :
  In (oneItem centsF 1000 [alice centsF 2; bob centsF (-1)])
     (line_items (receiptNegative centsF)) /\
  (totalShares (oneItem centsF 1000 [alice centsF 2; bob centsF (-1)]) >? zero) = true /\
  In (bob centsF (-1)) (assignments (oneItem centsF 1000 [alice centsF 2; bob centsF (-1)])) /\
  exists e,
    In e (calculatePerPersonBreakdown (receiptNegative centsF)) /\
    participantId e = "p2" /\
    In (1000 * 1 * -1 / (0 + 2 + -1))%float
       (creditedTo "p2" (visits (line_items (receiptNegative centsF)))) /\
    itemsTotal e = sumFrom zero (creditedTo "p2" (visits (line_items (receiptNegative centsF)))).
Proof.
  assert (H1 : In (oneItem centsF 1000 [alice centsF 2; bob centsF (-1)])
                 (line_items (receiptNegative centsF))) by (left; reflexivity).
  assert (H2 : (totalShares (oneItem centsF 1000 [alice centsF 2; bob centsF (-1)]) >? zero)
               = true) by (vm_compute; reflexivity).
  assert (H3 : In (bob centsF (-1))
                 (assignments (oneItem centsF 1000 [alice centsF 2; bob centsF (-1)])))
    by (right; left; reflexivity).
  split; [exact H1|]. split; [exact H2|]. split; [exact H3|].
  exact (proj2 (every_call_returns binary64 (receiptNegative centsF)) _ _ H1 H2 H3).
Defined.

(** ** C8: the order of the output *)

(** C8, counterexample.  A line item of 2^1023 cents and quantity 4 for
    Alice, whose total overflows, beside line items of 1000 cents for Bob and
    2000 for Carol, in doubles: the entries returned are Alice's, with total
    NaN, Bob's and Carol's; the comparator does not order them consistently;
    and in no order at all are they sorted by total, descending, NaN being
    neither at least nor at most any total. *)
Lemma nan_total_not_sorted :
  Permutation (calculatePerPersonBreakdown receiptOverflow)
              [aliceOverflow; bobThousand; carolTwoThousand] /\
  consistentComparator (proratedEntries receiptOverflow) = false /\
  forall l,
    Permutation l (calculatePerPersonBreakdown receiptOverflow) ->
    ~ StronglySorted (fun a b => PrimFloat.leb (total b) (total a) = true) l.
Proof.
  assert (Hentries : proratedEntries receiptOverflow
                     = [aliceOverflow; bobThousand; carolTwoThousand])
    by (vm_compute; reflexivity).
  assert (Hperm : Permutation (calculatePerPersonBreakdown receiptOverflow)
                    [aliceOverflow; bobThousand; carolTwoThousand])
    by (rewrite <- Hentries; apply sort_perm).
  split; [exact Hperm|]. split; [vm_compute; reflexivity|].
  intros l Hl Hsorted.
  assert (Ha : In aliceOverflow l).
  { apply (Permutation_in _ (Permutation_sym Hl)).
    apply (Permutation_in _ (Permutation_sym Hperm)). now left. }
  assert (Hb : In bobThousand l).
  { apply (Permutation_in _ (Permutation_sym Hl)).
    apply (Permutation_in _ (Permutation_sym Hperm)). right. now left. }
  destruct (sorted_pair Hsorted Ha Hb) as [Hle|Hle].
  - intros Heq. apply (f_equal (@participantId float)) in Heq. discriminate.
  - vm_compute in Hle. discriminate.
  - vm_compute in Hle. discriminate.
Qed.

(** C8, as amended.  For every receipt on whose entries the comparator
    [b.total - a.total] is consistent, the returned list holds the entries of
    the breakdown map sorted by total, descending: no entry is followed, at
    any distance, by an entry with which the comparator would exchange it
    ([b.total - a.total > 0]).  The sort is stable: the entries the comparator
    ties with a given entry, those of equal total among them, stand in the
    order in which the breakdown map holds them, and that is insertion order,
    the order in which the loop over the line items' assignments met each
    participant first.  This holds for every number type, doubles included.
    In doubles the comparator is consistent whenever no total is NaN; then
    every entry's total is at least ([>=]) the total of each entry after it,
    and for every number the entries whose total equals it ([==]) stand in
    the order of the breakdown map. *)
Theorem output_sorted_and_stable :
  (forall (num : Type) (N : JsNumber num) (r : ReceiptData num),
    consistentComparator (proratedEntries r) = true ->
    Permutation (calculatePerPersonBreakdown r) (proratedEntries r) /\
    StronglySorted (fun a b => (total b - total a >? zero) = false)
      (calculatePerPersonBreakdown r) /\
    (forall a, In a (proratedEntries r) ->
               filter (tied a) (calculatePerPersonBreakdown r)
               = filter (tied a) (proratedEntries r)) /\
    (forall a b, In a (proratedEntries r) -> In b (proratedEntries r) ->
                 total a = total b -> tied a b = true) /\
    List.map (@participantId num) (proratedEntries r)
    = firstOccurrences
        (List.map (fun v => participant_id (snd v)) (visits (line_items r)))) /\
  (forall r : ReceiptData float,
    totalsAreNumbers (proratedEntries r) ->
    consistentComparator (proratedEntries r) = true /\
    StronglySorted (fun a b => PrimFloat.leb (total b) (total a) = true)
      (calculatePerPersonBreakdown r) /\
    (forall t : float,
       filter (fun e => PrimFloat.eqb (total e) t) (calculatePerPersonBreakdown r)
       = filter (fun e => PrimFloat.eqb (total e) t) (proratedEntries r))).
Proof.
  split.
  - intros num N r Hc. split; [|split; [|split; [|split]]].
    + apply sort_perm.
    + apply sort_sorted with (l0 := proratedEntries r); [exact Hc|apply incl_refl].
    + intros a Ha.
      apply sort_stable with (l0 := proratedEntries r);
        [exact Hc|exact Ha|apply incl_refl].
    + intros a b Ha Hb. now apply equal_totals_tied with (l := proratedEntries r).
    + apply proratedEntries_order.
  - intros r Hn. pose proof (numbers_consistent _ Hn) as Hc.
    split; [exact Hc|]. split.
    + apply sorted_by_leb.
      * apply (Permutation_Forall
                 (Permutation_sym (sort_perm compareTotals (proratedEntries r)))).
        exact Hn.
      * apply sort_sorted with (l0 := proratedEntries r);
          [exact Hc|apply incl_refl].
    + intros t. now apply equal_totals_in_map_order.
Qed.

(** The tie of the test suite, in doubles: Charlie's 3000 comes first, then
    Bob and Alice, who have 500 each, Bob having been met first. *)
Lemma output_sorted_and_stable_witness :
  consistentComparator (proratedEntries (receiptTie centsF)) = true /\
  totalsAreNumbers (proratedEntries (receiptTie centsF)) /\
  List.map (fun e => (participantName e, total e))
    (proratedEntries (receiptTie centsF))
  = [("Bob", 500%float); ("Alice", 500%float); ("Charlie", 3000%float)] /\
  List.map (fun e => (participantName e, total e))
    (calculatePerPersonBreakdown (receiptTie centsF))
  = [("Charlie", 3000%float); ("Bob", 500%float); ("Alice", 500%float)] /\
  StronglySorted (fun a b => (total b - total a >? zero) = false)
    (calculatePerPersonBreakdown (receiptTie centsF)) /\
  StronglySorted (fun a b => PrimFloat.leb (total b) (total a) = true)
    (calculatePerPersonBreakdown (receiptTie centsF)) /\
  filter (fun e => PrimFloat.eqb (total e) 500%float)
    (calculatePerPersonBreakdown (receiptTie centsF))
  = filter (fun e => PrimFloat.eqb (total e) 500%float)
      (proratedEntries (receiptTie centsF)).
Proof.
  assert (Hc : consistentComparator (proratedEntries (receiptTie centsF)) = true)
    by (vm_compute; reflexivity).
  assert (Hn : totalsAreNumbers (proratedEntries (receiptTie centsF)))
    by (vm_compute; repeat constructor).
  split; [exact Hc|]. split; [exact Hn|].
  split; [vm_compute; reflexivity|].
  split; [vm_compute; reflexivity|].
  split.
  - exact (proj1 (proj2 (proj1 output_sorted_and_stable
                           float binary64 (receiptTie centsF) Hc))).
  - destruct (proj2 output_sorted_and_stable (receiptTie centsF) Hn)
      as (_ & Hsorted & Hstable).
    split; [exact Hsorted|apply Hstable].
Defined.

(** ** C9: determinism *)

(** C9.  Run on a heap, the call reads none of it and changes none of it.
    Started from any two heaps on the same receipt, two calls return lists
    that read the same: the same entries with the same field values in the
    same order, those of the function [calculatePerPersonBreakdown] above.
    So does a second call started from the heap the first one left, and it
    leaves the objects of the first list as they were.  The heap a call
    started from is untouched, and the references returned are distinct and
    point to objects the call created.  (Where the comparator is not
    consistent the order of the list is the engine's; it is then a function
    of the entries and of the comparator's answers, as the sort here is.) *)
Theorem calculate_deterministic :
  forall (num : Type) (N : JsNumber num) (r : ReceiptData num)
         (h1 h2 : OnHeap.Heap num),
    let run1 := OnHeap.calculatePerPersonBreakdown h1 r in
    let run2 := OnHeap.calculatePerPersonBreakdown h2 r in
    let again := OnHeap.calculatePerPersonBreakdown (fst run1) r in
    OnHeap.returned run1 = OnHeap.returned run2 /\
    OnHeap.returned run1 = List.map Some (calculatePerPersonBreakdown r) /\
    OnHeap.returned again = OnHeap.returned run1 /\
    List.map (OnHeap.deref (fst again)) (snd run1) = OnHeap.returned run1 /\
    firstn (List.length h1) (fst run1) = h1 /\
    Forall (fun p => (List.length h1 <= p < List.length (fst run1))%nat) (snd run1) /\
    NoDup (snd run1).
Proof.
  intros num N r h1 h2 run1 run2 again.
  destruct (call_on_heap h1 r) as (Hrun1 & Hold1 & Hnew1 & Hnd1).
  destruct (call_on_heap h2 r) as (Hrun2 & _).
  destruct (call_on_heap (fst run1) r) as (Hagain & Holdagain & _).
  fold run1 in Hrun1, Hold1, Hnew1, Hnd1. fold run2 in Hrun2.
  fold again in Hagain, Holdagain.
  split; [now rewrite Hrun1, Hrun2|]. split; [exact Hrun1|].
  split; [now rewrite Hagain, Hrun1|]. split; [|auto].
  unfold OnHeap.returned. apply map_ext_in. intros p Hp.
  rewrite Forall_forall in Hnew1.
  apply deref_old; [exact Holdagain|]. apply (Hnew1 p Hp).
Qed.

(** Scenario B in doubles, from the empty heap and from a heap that holds an
    object already: the lists read the same, and the object is still
    there. *)
Example calls_on_two_heaps :
  OnHeap.returned (OnHeap.calculatePerPersonBreakdown [] (receiptTax centsF))
  = [Some (mkPerPersonBreakdown "p1" "Alice" 2000%float 200%float 0%float 2200%float);
     Some (mkPerPersonBreakdown "p2" "Bob" 1000%float 100%float 0%float 1100%float)] /\
  OnHeap.calculatePerPersonBreakdown [] (receiptTax centsF)
  = ([mkPerPersonBreakdown "p1" "Alice" 2000%float 200%float 0%float 2200%float;
      mkPerPersonBreakdown "p2" "Bob" 1000%float 100%float 0%float 1100%float],
     [0%nat; 1%nat]) /\
  OnHeap.calculatePerPersonBreakdown [aliceFree] (receiptTax centsF)
  = ([aliceFree;
      mkPerPersonBreakdown "p1" "Alice" 2000%float 200%float 0%float 2200%float;
      mkPerPersonBreakdown "p2" "Bob" 1000%float 100%float 0%float 1100%float],
     [1%nat; 2%nat]).
Proof. repeat split; vm_compute; reflexivity. Qed.

(** ** C10: the guard of the proration *)

Lemma Qc_add_zero_zero (x : Qc) : (x + 0 + 0 = x)%Qc.
Proof. ring. Qed.

(** C10.  When [totalAssignedAmount] is 0 the quotients of the proration loop
    are not evaluated: every returned entry has tax share 0 and tip share 0,
    whatever the tax lines and the tip, and its total is
    [itemsTotal + 0 + 0], which in exact arithmetic is [itemsTotal]. *)
Theorem zero_assigned_amount_leaves_tax_and_tip_unallocated :
  (forall (num : Type) (N : JsNumber num) (r : ReceiptData num)
          (e : PerPersonBreakdown num),
      totalAssignedAmount (processItems (line_items r)) = zero ->
      In e (calculatePerPersonBreakdown r) ->
      taxShare e = zero /\ tipShare e = zero /\
      total e = itemsTotal e + zero + zero) /\
  (forall (r : ReceiptData Qc) (e : PerPersonBreakdown Qc),
      totalAssignedAmount (processItems (line_items r)) = 0%Qc ->
      In e (calculatePerPersonBreakdown r) ->
      taxShare e = 0%Qc /\ tipShare e = 0%Qc /\ total e = itemsTotal e).
Proof.
  assert (Hgen : forall (num : Type) (N : JsNumber num) (r : ReceiptData num)
                        (e : PerPersonBreakdown num),
             totalAssignedAmount (processItems (line_items r)) = zero ->
             In e (calculatePerPersonBreakdown r) ->
             taxShare e = zero /\ tipShare e = zero /\
             total e = itemsTotal e + zero + zero).
  { intros num N r e Hzero Hin. apply (output_unallocated r); auto.
    rewrite Hzero. apply gtb_zero_zero. }
  split; [exact Hgen|].
  intros r e Hzero Hin.
  destruct (Hgen Qc exact r e Hzero Hin) as (Htax & Htip & Htot).
  repeat split; auto.
  rewrite Htot. apply Qc_add_zero_zero.
Qed.

(** A free item with one share, a tax line of 300 and a tip of 100: the
    breakdown is not empty and nothing of the tax or the tip is allocated. *)
Lemma zero_assigned_amount_leaves_tax_and_tip_unallocated_witness :
  totalAssignedAmount (processItems (line_items (receiptFree centsF))) = 0%float /\
  In aliceFree (calculatePerPersonBreakdown (receiptFree centsF)) /\
  taxTotal (receiptFree centsF) = 300%float /\
  tipTotal (receiptFree centsF) = 100%float /\
  taxShare aliceFree = 0%float /\ tipShare aliceFree = 0%float /\
  total aliceFree = (itemsTotal aliceFree + 0 + 0)%float.
Proof.
  assert (Hzero : totalAssignedAmount (processItems (line_items (receiptFree centsF)))
                  = 0%float) by (vm_compute; reflexivity).
  assert (Hin : In aliceFree (calculatePerPersonBreakdown (receiptFree centsF)))
    by (left; vm_compute; reflexivity).
  split; [exact Hzero|]. split; [exact Hin|].
  split; [vm_compute; reflexivity|]. split; [vm_compute; reflexivity|].
  exact (proj1 zero_assigned_amount_leaves_tax_and_tip_unallocated
           float binary64 (receiptFree centsF) aliceFree Hzero Hin).
Defined.

(** ** The scenarios in doubles *)

(** Shares 1:2, 3:6 and 7:14 on ten dollars give the same doubles, and the two
    thirds add up to the thousand cents. *)
Example scaled_shares_in_doubles :
  calculatePerPersonBreakdown
    (mkReceiptData [oneItem centsF 1000 [alice centsF 3; bob centsF 6]] [] None)
  = calculatePerPersonBreakdown (receiptThirds centsF) /\
  calculatePerPersonBreakdown
    (mkReceiptData [oneItem centsF 1000 [alice centsF 7; bob centsF 14]] [] None)
  = calculatePerPersonBreakdown (receiptThirds centsF) /\
  fold_right (fun e acc => (itemsTotal e + acc)%float) 0%float
    (calculatePerPersonBreakdown (receiptThirds centsF))
  = 1000%float.
Proof. repeat split; vm_compute; reflexivity. Qed.

(** The tests 'handles unequal shares (2:1 split)' and 'handles receipt with
    empty line items', in doubles. *)
Example test_suite_in_doubles :
  calculatePerPersonBreakdown (receiptTwoToOne centsF)
  = [mkPerPersonBreakdown "p1" "Alice" 2000%float 0%float 0%float 2000%float;
     mkPerPersonBreakdown "p2" "Bob" 1000%float 0%float 0%float 1000%float] /\
  calculatePerPersonBreakdown
    (mkReceiptData [] [mkTaxLine 100%float] (Some 200%float))
  = [].
Proof. split; vm_compute; reflexivity. Qed.
